(** * Schema diff of graphql-inspector (pkg/core/diff.go)

    A shallow embedding of [DiffSchemas] and of the comparators it calls,
    together with the part of the graphql-go data model they read, and the
    properties of the diff that the specification states. *)

From Stdlib Require Import String Ascii List Bool Arith Lia Permutation.
From stdpp Require Import base gmap strings list fin_maps.

Import ListNotations.
Local Open Scope string_scope.
Local Open Scope list_scope.

(** ** Iteration order of Go maps

    A [range] statement over a Go map visits the entries in an order the
    runtime chooses anew each time.  The choice is made explicit: every
    [range] statement consumes one [Order] from an [Oracle] that is threaded
    through the comparators.  An [Order] places each entry of the map at the
    given offset among the entries already placed. *)

Definition Order := list nat.
Definition Oracle := list Order.

Fixpoint insert_at {A : Type} (d : nat) (x : A) (l : list A) : list A :=
  match d, l with
  | S d', y :: l' => y :: insert_at d' x l'
  | _, _ => x :: l
  end.

Fixpoint visit {A : Type} (o : Order) (l : list A) : list A :=
  match l with
  | [] => []
  | x :: l' =>
      match o with
      | [] => x :: visit [] l'
      | d :: o' => insert_at d x (visit o' l')
      end
  end.

(** Computations that range over maps: the oracle is passed along. *)
Definition Iter (A : Type) : Type := Oracle -> A * Oracle.

Definition ret {A : Type} (a : A) : Iter A := fun orc => (a, orc).

Definition bind {A B : Type} (m : Iter A) (f : A -> Iter B) : Iter B :=
  fun orc => f (fst (m orc)) (snd (m orc)).

Notation "'do' x <- c1 ; c2" := (bind c1 (fun x => c2))
  (at level 10, x name, c1 at level 100, c2 at level 200).

Definition run {A : Type} (m : Iter A) (orc : Oracle) : A := fst (m orc).

(** [for k, v := range m]: the entries of [m] in the order drawn. *)
Definition rangeMap {V : Type} (m : gmap string V) : Iter (list (string * V)) :=
  fun orc =>
    match orc with
    | [] => (map_to_list m, [])
    | o :: orc' => (visit o (map_to_list m), orc')
    end.

(** A loop whose body appends the changes of a comparator call:
    [for _, x := range l { changes = append(changes, f(x)...) }]. *)
Fixpoint forEach {A B : Type} (f : A -> Iter (list B)) (l : list A) : Iter (list B) :=
  match l with
  | [] => ret []
  | x :: l' =>
      do c <- f x;
      do cs <- forEach f l';
      ret (c ++ cs)
  end.

(** ** Data model (graphql-go, as far as the diff reads it) *)

Inductive TypeKind :=
| KObject | KInterface | KUnion | KEnum | KInputObject | KScalar.

(** A [graphql.Type] in a field or argument position.  A named type is a
    pointer to the object that defines it: the model keeps the kind and the
    name of that object and [ref], which stands for the object itself up to
    [reflect.DeepEqual] (two references carry the same [ref] exactly when
    DeepEqual holds of the objects they point to; references to one object,
    such as the built-in [graphql.String], always do).  DeepEqual follows
    the pointer into the object and on through its fields, arguments, enum
    values and member types, so a change anywhere in what a reference
    reaches gives the reference another [ref].  The type map does not
    determine the [ref]s: a statement that is to hold of a type that fields
    refer to has to say what it assumes of the [ref]s of those fields. *)
Inductive GType :=
| Named (kind : TypeKind) (name : string) (ref : nat)
| List (OfType : GType)
| NonNull (OfType : GType).

Record Argument := {
  PrivateName : string;
  arg_Type : GType;
  DefaultValue : option string;
  PrivateDescription : string
}.

Record FieldDefinition := {
  fd_Name : string;
  fd_Description : string;
  fd_Type : GType;
  fd_Args : list Argument;
  fd_DeprecationReason : string
}.

Record EnumValueDefinition := {
  ev_Name : string;
  ev_DeprecationReason : string;
  ev_Description : string
}.

Record InputObjectField := {
  if_Name : string;
  if_Type : GType;
  if_DefaultValue : option string;
  if_Description : string
}.

Record Object := {
  obj_Name : string;
  obj_Description : string;
  obj_Fields : gmap string FieldDefinition;
  obj_Interfaces : list string
}.

Record Interface := {
  ifc_Name : string;
  ifc_Description : string;
  ifc_Fields : gmap string FieldDefinition
}.

Record Union := {
  un_Name : string;
  un_Description : string;
  un_Types : list string
}.

Record Enum := {
  en_Name : string;
  en_Description : string;
  en_Values : list EnumValueDefinition
}.

Record InputObject := {
  io_Name : string;
  io_Description : string;
  io_Fields : gmap string InputObjectField
}.

Record Scalar := {
  sc_Name : string;
  sc_Description : string
}.

(** The values of a schema's type map: the dynamic types behind
    [graphql.Type] that a type map holds. *)
Inductive NamedType :=
| TObject (t : Object)
| TInterface (t : Interface)
| TUnion (t : Union)
| TEnum (t : Enum)
| TInputObject (t : InputObject)
| TScalar (t : Scalar).

Record Directive := {
  dir_Name : string;
  dir_Locations : list string;
  dir_Args : list Argument
}.

(** [graphql.Schema]: the type map, the directives and the three root
    operation types (pointers to objects, here their names; nil is [None]). *)
Record GraphQLSchema := {
  typeMap : gmap string NamedType;
  directives : list Directive;
  queryType : option string;
  mutationType : option string;
  subscriptionType : option string
}.

Definition TypeMap (gq : GraphQLSchema) : gmap string NamedType := typeMap gq.

(** [core.Schema]: [Schema_] is the pointer to the graphql-go schema. *)
Record Schema := {
  Schema_ : option GraphQLSchema;
  SDL : string;
  Hash : string;
  Source : string
}.

Inductive ChangeType := ChangeTypeBreaking | ChangeTypeDangerous | ChangeTypeNonBreaking.

Definition ChangeType_string (t : ChangeType) : string :=
  match t with
  | ChangeTypeBreaking => "BREAKING"
  | ChangeTypeDangerous => "DANGEROUS"
  | ChangeTypeNonBreaking => "NON_BREAKING"
  end.

Definition ChangeType_eqb (a b : ChangeType) : bool :=
  match a, b with
  | ChangeTypeBreaking, ChangeTypeBreaking
  | ChangeTypeDangerous, ChangeTypeDangerous
  | ChangeTypeNonBreaking, ChangeTypeNonBreaking => true
  | _, _ => false
  end.

Record Change := {
  Type_ : ChangeType;
  Message : string;
  Path : string;
  Criticality : string;
  Meta : gmap string string
}.

Record DiffOptions := {
  IgnoreDescriptions : bool;
  IgnoreDirectives : bool;
  CustomRules : list string
}.

(** [&DiffOptions{}] *)
Definition defaultOptions : DiffOptions :=
  {| IgnoreDescriptions := false; IgnoreDirectives := false; CustomRules := [] |}.

(** ** Helper functions of diff.go *)

(** [getTypeKind] on the values of a type map.  Its LIST, NON_NULL and
    UNKNOWN branches are for wrapper types and nil, which a type map does
    not hold. *)
Definition getTypeKind (t : NamedType) : string :=
  match t with
  | TObject _ => "OBJECT"
  | TInterface _ => "INTERFACE"
  | TUnion _ => "UNION"
  | TEnum _ => "ENUM"
  | TInputObject _ => "INPUT_OBJECT"
  | TScalar _ => "SCALAR"
  end.

Fixpoint getTypeString (t : GType) : string :=
  match t with
  | NonNull t' => getTypeString t' +:+ "!"
  | List t' => "[" +:+ getTypeString t' +:+ "]"
  | Named _ name _ => name
  end.

Definition TypeKind_eqb (a b : TypeKind) : bool :=
  match a, b with
  | KObject, KObject | KInterface, KInterface | KUnion, KUnion
  | KEnum, KEnum | KInputObject, KInputObject | KScalar, KScalar => true
  | _, _ => false
  end.

(** [areTypesEqual] is [reflect.DeepEqual] on two type references: equal
    wrappers around deeply equal named types. *)
Fixpoint areTypesEqual (oldType newType : GType) : bool :=
  match oldType, newType with
  | Named k1 n1 r1, Named k2 n2 r2 =>
      TypeKind_eqb k1 k2 && String.eqb n1 n2 && Nat.eqb r1 r2
  | List t1, List t2 => areTypesEqual t1 t2
  | NonNull t1, NonNull t2 => areTypesEqual t1 t2
  | _, _ => false
  end.

Fixpoint isTypeWidening (oldType newType : GType) : bool :=
  match oldType with
  | NonNull oldOf =>
      match newType with
      | NonNull newOf => isTypeWidening oldOf newOf
      | _ => areTypesEqual oldOf newType
      end
  | _ => false
  end.

Definition isRequiredType (t : GType) : bool :=
  match t with
  | NonNull _ => true
  | _ => false
  end.

(** ** The Change records the comparators build *)

Definition typeRemoved (name : string) (oldType : NamedType) : Change :=
  {| Type_ := ChangeTypeBreaking;
     Message := "Type '" +:+ name +:+ "' was removed";
     Path := name;
     Criticality := "HIGH";
     Meta := <["typeName" := name]> (<["typeKind" := getTypeKind oldType]> ∅) |}.

Definition typeAdded (name : string) (newType : NamedType) : Change :=
  {| Type_ := ChangeTypeNonBreaking;
     Message := "Type '" +:+ name +:+ "' was added";
     Path := name;
     Criticality := "LOW";
     Meta := <["typeName" := name]> (<["typeKind" := getTypeKind newType]> ∅) |}.

Definition typeKindChanged (typeName : string) (oldType newType : NamedType) : Change :=
  {| Type_ := ChangeTypeBreaking;
     Message := "Type '" +:+ typeName +:+ "' changed from " +:+ getTypeKind oldType
                +:+ " to " +:+ getTypeKind newType;
     Path := typeName;
     Criticality := "HIGH";
     Meta := <["typeName" := typeName]> (<["oldKind" := getTypeKind oldType]>
             (<["newKind" := getTypeKind newType]> ∅)) |}.

Definition typeDescriptionChanged (typeName : string) : Change :=
  {| Type_ := ChangeTypeNonBreaking;
     Message := "Description for type '" +:+ typeName +:+ "' changed";
     Path := typeName;
     Criticality := "LOW";
     Meta := ∅ |}.

Definition fieldPath (typeName fieldName : string) : string :=
  typeName +:+ "." +:+ fieldName.

Definition fieldRemoved (typeName fieldName : string) : Change :=
  {| Type_ := ChangeTypeBreaking;
     Message := "Field '" +:+ typeName +:+ "." +:+ fieldName +:+ "' was removed";
     Path := fieldPath typeName fieldName;
     Criticality := "HIGH";
     Meta := <["typeName" := typeName]> (<["fieldName" := fieldName]> ∅) |}.

Definition fieldAdded (typeName fieldName : string) : Change :=
  {| Type_ := ChangeTypeNonBreaking;
     Message := "Field '" +:+ typeName +:+ "." +:+ fieldName +:+ "' was added";
     Path := fieldPath typeName fieldName;
     Criticality := "LOW";
     Meta := <["typeName" := typeName]> (<["fieldName" := fieldName]> ∅) |}.

Definition fieldTypeChanged (typeName fieldName : string) (oldT newT : GType) : Change :=
  let widening := isTypeWidening oldT newT in
  {| Type_ := if widening then ChangeTypeDangerous else ChangeTypeBreaking;
     Message := "Field '" +:+ typeName +:+ "." +:+ fieldName +:+ "' changed type from "
                +:+ getTypeString oldT +:+ " to " +:+ getTypeString newT;
     Path := fieldPath typeName fieldName;
     Criticality := if widening then "MEDIUM" else "HIGH";
     Meta := <["typeName" := typeName]> (<["fieldName" := fieldName]>
             (<["oldType" := getTypeString oldT]> (<["newType" := getTypeString newT]> ∅))) |}.

Definition fieldDescriptionChanged (typeName fieldName : string) : Change :=
  {| Type_ := ChangeTypeNonBreaking;
     Message := "Field '" +:+ typeName +:+ "." +:+ fieldName +:+ "' description changed";
     Path := fieldPath typeName fieldName;
     Criticality := "LOW";
     Meta := ∅ |}.

Definition argPath (typeName fieldName argName : string) : string :=
  typeName +:+ "." +:+ fieldName +:+ "(" +:+ argName +:+ ":)".

Definition argRemoved (typeName fieldName argName : string) : Change :=
  {| Type_ := ChangeTypeBreaking;
     Message := "Argument '" +:+ argName +:+ "' was removed from field '"
                +:+ typeName +:+ "." +:+ fieldName +:+ "'";
     Path := argPath typeName fieldName argName;
     Criticality := "HIGH";
     Meta := <["typeName" := typeName]> (<["fieldName" := fieldName]>
             (<["argName" := argName]> ∅)) |}.

Definition argAdded (typeName fieldName argName : string) (newArg : Argument) : Change :=
  let required := isRequiredType (arg_Type newArg) in
  {| Type_ := if required then ChangeTypeBreaking else ChangeTypeNonBreaking;
     Message := "Argument '" +:+ argName +:+ "' was added to field '"
                +:+ typeName +:+ "." +:+ fieldName +:+ "'";
     Path := argPath typeName fieldName argName;
     Criticality := if required then "HIGH" else "LOW";
     Meta := <["typeName" := typeName]> (<["fieldName" := fieldName]>
             (<["argName" := argName]> (<["argType" := getTypeString (arg_Type newArg)]> ∅))) |}.

(** ** The comparators *)

(** [m[arg.Name()] = arg] for each argument in turn: a later argument of
    the same name replaces an earlier one. *)
Definition argMap (args : list Argument) : gmap string Argument :=
  fold_left (fun m arg => <[PrivateName arg := arg]> m) args ∅.

Definition compareFieldArguments (typeName fieldName : string)
    (oldArgs newArgs : list Argument) (options : DiffOptions) : Iter (list Change) :=
  let oldArgMap := argMap oldArgs in
  let newArgMap := argMap newArgs in
  do olds <- rangeMap oldArgMap;
  let removed :=
    flat_map (fun e : string * Argument =>
                match newArgMap !! e.1 with
                | None => [argRemoved typeName fieldName e.1]
                | Some _ => []
                end) olds in
  do news <- rangeMap newArgMap;
  let added :=
    flat_map (fun e : string * Argument =>
                match oldArgMap !! e.1 with
                | None => [argAdded typeName fieldName e.1 e.2]
                | Some _ => []
                end) news in
  ret (removed ++ added).

Definition compareField (typeName fieldName : string)
    (oldField newField : FieldDefinition) (options : DiffOptions) : Iter (list Change) :=
  let typeChange :=
    if negb (areTypesEqual (fd_Type oldField) (fd_Type newField))
    then [fieldTypeChanged typeName fieldName (fd_Type oldField) (fd_Type newField)]
    else [] in
  let descChange :=
    if negb (IgnoreDescriptions options)
       && negb (String.eqb (fd_Description oldField) (fd_Description newField))
    then [fieldDescriptionChanged typeName fieldName]
    else [] in
  do argChanges <- compareFieldArguments typeName fieldName
                     (fd_Args oldField) (fd_Args newField) options;
  ret (typeChange ++ descChange ++ argChanges).

Definition compareFields (typeName : string)
    (oldFields newFields : gmap string FieldDefinition) (options : DiffOptions)
    : Iter (list Change) :=
  do olds <- rangeMap oldFields;
  let removed :=
    flat_map (fun e : string * FieldDefinition =>
                match newFields !! e.1 with
                | None => [fieldRemoved typeName e.1]
                | Some _ => []
                end) olds in
  do news <- rangeMap newFields;
  let added :=
    flat_map (fun e : string * FieldDefinition =>
                match oldFields !! e.1 with
                | None => [fieldAdded typeName e.1]
                | Some _ => []
                end) news in
  do olds' <- rangeMap oldFields;
  do modified <-
    forEach (fun e : string * FieldDefinition =>
               match newFields !! e.1 with
               | Some newField => compareField typeName e.1 e.2 newField options
               | None => ret []
               end) olds';
  ret (removed ++ added ++ modified).

(** Placeholders of diff.go: each returns [[]Change{}]. *)
Definition compareImplementedInterfaces (typeName : string)
    (oldInterfaces newInterfaces : list string) (options : DiffOptions) : list Change := [].

Definition compareInterfaceType (typeName : string)
    (oldType newType : Interface) (options : DiffOptions) : list Change := [].

Definition compareUnionType (typeName : string)
    (oldType newType : Union) (options : DiffOptions) : list Change := [].

Definition compareEnumType (typeName : string)
    (oldType newType : Enum) (options : DiffOptions) : list Change := [].

Definition compareInputObjectType (typeName : string)
    (oldType newType : InputObject) (options : DiffOptions) : list Change := [].

Definition compareScalarType (typeName : string)
    (oldType newType : Scalar) (options : DiffOptions) : list Change := [].

Definition compareDirectives (oldSchema newSchema : GraphQLSchema)
    (options : DiffOptions) : list Change := [].

Definition compareSchemaDefinition (oldSchema newSchema : GraphQLSchema)
    (options : DiffOptions) : list Change := [].

Definition compareObjectType (typeName : string)
    (oldType newType : Object) (options : DiffOptions) : Iter (list Change) :=
  let descChange :=
    if negb (IgnoreDescriptions options)
       && negb (String.eqb (obj_Description oldType) (obj_Description newType))
    then [typeDescriptionChanged typeName]
    else [] in
  do fieldChanges <- compareFields typeName (obj_Fields oldType) (obj_Fields newType) options;
  let interfaceChanges :=
    compareImplementedInterfaces typeName
      (obj_Interfaces oldType) (obj_Interfaces newType) options in
  ret (descChange ++ fieldChanges ++ interfaceChanges).

Definition compareType (typeName : string) (oldType newType : NamedType)
    (options : DiffOptions) : Iter (list Change) :=
  if negb (String.eqb (getTypeKind oldType) (getTypeKind newType))
  then ret [typeKindChanged typeName oldType newType]
  else
    match oldType, newType with
    | TObject o, TObject n => compareObjectType typeName o n options
    | TInterface o, TInterface n => ret (compareInterfaceType typeName o n options)
    | TUnion o, TUnion n => ret (compareUnionType typeName o n options)
    | TEnum o, TEnum n => ret (compareEnumType typeName o n options)
    | TInputObject o, TInputObject n => ret (compareInputObjectType typeName o n options)
    | TScalar o, TScalar n => ret (compareScalarType typeName o n options)
    | _, _ => ret []
    end.

Definition compareTypes (oldSchema newSchema : GraphQLSchema) (options : DiffOptions)
    : Iter (list Change) :=
  let oldTypes := TypeMap oldSchema in
  let newTypes := TypeMap newSchema in
  do olds <- rangeMap oldTypes;
  let removed :=
    flat_map (fun e : string * NamedType =>
                match newTypes !! e.1 with
                | None => [typeRemoved e.1 e.2]
                | Some _ => []
                end) olds in
  do news <- rangeMap newTypes;
  let added :=
    flat_map (fun e : string * NamedType =>
                match oldTypes !! e.1 with
                | None => [typeAdded e.1 e.2]
                | Some _ => []
                end) news in
  do olds' <- rangeMap oldTypes;
  do modified <-
    forEach (fun e : string * NamedType =>
               match newTypes !! e.1 with
               | Some newType => compareType e.1 e.2 newType options
               | None => ret []
               end) olds';
  ret (removed ++ added ++ modified).

(** ** Sorting *)

(** The comparator handed to [sort.Slice]. *)
Definition less (a b : Change) : bool :=
  if negb (ChangeType_eqb (Type_ a) (Type_ b))
  then ChangeType_eqb (Type_ a) ChangeTypeBreaking
  else String.ltb (Path a) (Path b).

(** [sort.Slice] belongs to Go's library.  On a slice of at most 12
    elements it runs an insertion sort (on fewer than 7 in every release of
    the library), which is the model here: element [i] is swapped towards
    the front while it is less than its left neighbour.  [sink] works on the
    sorted prefix in reverse. *)
Fixpoint sink {A : Type} (lt : A -> A -> bool) (x : A) (revPrefix : list A) : list A :=
  match revPrefix with
  | [] => [x]
  | y :: rest => if lt x y then y :: sink lt x rest else x :: y :: rest
  end.

Definition sortSlice {A : Type} (lt : A -> A -> bool) (l : list A) : list A :=
  rev (fold_left (fun acc x => sink lt x acc) l []).

(** ** DiffSchemas *)

Inductive Result :=
| Ok (changes : list Change)      (* (changes, nil) *)
| Err (msg : string)              (* (nil, error) *)
| Panic.                          (* nil pointer dereference *)

Definition DiffSchemas (oldSchema newSchema : option Schema)
    (options : option DiffOptions) : Iter Result :=
  match oldSchema, newSchema with
  | Some oldS, Some newS =>
      let options := match options with Some o => o | None => defaultOptions end in
      match Schema_ oldS, Schema_ newS with
      | Some oldG, Some newG =>
          do typeChanges <- compareTypes oldG newG options;
          let directiveChanges :=
            if negb (IgnoreDirectives options)
            then compareDirectives oldG newG options
            else [] in
          let schemaChanges := compareSchemaDefinition oldG newG options in
          ret (Ok (sortSlice less (typeChanges ++ directiveChanges ++ schemaChanges)))
      | _, _ => ret Panic
      end
  | _, _ => ret (Err "both schemas must be provided")
  end.

(** ** Names for the parts of the comparators

    The theorems below refer to the loop bodies and to the conditional
    changes of the comparators by these names; each is the text of the
    comparator it is taken from. *)

(** The three loops of [compareTypes] and of [compareFields] have one
    shape; [removedOf], [addedOf] and [modifiedOf] are their bodies. *)
Definition removedOf {V : Type} (mk : string -> V -> Change) (others : gmap string V)
    (e : string * V) : list Change :=
  match others !! e.1 with
  | None => [mk e.1 e.2]
  | Some _ => []
  end.

Definition fieldTypeChanges tn fn (o n : FieldDefinition) : list Change :=
  if negb (areTypesEqual (fd_Type o) (fd_Type n))
  then [fieldTypeChanged tn fn (fd_Type o) (fd_Type n)] else [].

Definition fieldDescriptionChanges tn fn (o n : FieldDefinition) opts : list Change :=
  if negb (IgnoreDescriptions opts)
     && negb (String.eqb (fd_Description o) (fd_Description n))
  then [fieldDescriptionChanged tn fn] else [].

Definition modifiedField tn (newFields : gmap string FieldDefinition) opts
    (e : string * FieldDefinition) : Iter (list Change) :=
  match newFields !! e.1 with
  | Some newField => compareField tn e.1 e.2 newField opts
  | None => ret []
  end.

Definition typeDescriptionChanges tn (o n : Object) opts : list Change :=
  if negb (IgnoreDescriptions opts)
     && negb (String.eqb (obj_Description o) (obj_Description n))
  then [typeDescriptionChanged tn] else [].

Definition modifiedType (newTypes : gmap string NamedType) opts
    (e : string * NamedType) : Iter (list Change) :=
  match newTypes !! e.1 with
  | Some newType => compareType e.1 e.2 newType opts
  | None => ret []
  end.

(** [DiffSchemas] on two schemas that are there. *)
Definition schemaOf (g : GraphQLSchema) : Schema :=
  {| Schema_ := Some g; SDL := ""; Hash := ""; Source := "" |}.

Definition optionsOf (options : option DiffOptions) : DiffOptions :=
  match options with Some o => o | None => defaultOptions end.


(** The changes that come out of the comparison of a type present in both
    schemas. *)
Inductive ModifiedChange : Change -> Prop :=
| MC_kind tn o n : ModifiedChange (typeKindChanged tn o n)
| MC_typeDescription tn : ModifiedChange (typeDescriptionChanged tn)
| MC_fieldRemoved tn fn : ModifiedChange (fieldRemoved tn fn)
| MC_fieldAdded tn fn : ModifiedChange (fieldAdded tn fn)
| MC_fieldType tn fn o n : ModifiedChange (fieldTypeChanged tn fn o n)
| MC_fieldDescription tn fn : ModifiedChange (fieldDescriptionChanged tn fn)
| MC_argRemoved tn fn an : ModifiedChange (argRemoved tn fn an)
| MC_argAdded tn fn an a : ModifiedChange (argAdded tn fn an a).

(** The diff reports type [T] as removed, respectively as added. *)
Definition isTypeRemoved (T : string) (c : Change) : Prop :=
  Type_ c = ChangeTypeBreaking /\ Path c = T
  /\ Message c = "Type '" +:+ T +:+ "' was removed".

Definition isTypeAdded (T : string) (c : Change) : Prop :=
  Type_ c = ChangeTypeNonBreaking /\ Path c = T
  /\ Message c = "Type '" +:+ T +:+ "' was added".

Definition reports (P : Change -> Prop) (r : Result) : Prop :=
  match r with
  | Ok changes => exists c, In c changes /\ P c
  | _ => False
  end.

(** The diff reports field [f] of type [T] as removed, respectively added. *)
Definition isFieldRemoved (T f : string) (c : Change) : Prop :=
  Type_ c = ChangeTypeBreaking /\ Path c = T +:+ "." +:+ f
  /\ Message c = "Field '" +:+ T +:+ "." +:+ f +:+ "' was removed".

Definition isFieldAdded (T f : string) (c : Change) : Prop :=
  Type_ c = ChangeTypeNonBreaking /\ Path c = T +:+ "." +:+ f
  /\ Message c = "Field '" +:+ T +:+ "." +:+ f +:+ "' was added".

(** ** Example schemas *)

Definition String_ : GType := Named KScalar "String" 0.
Definition ID_ : GType := Named KScalar "ID" 1.
Definition Int_ : GType := Named KScalar "Int" 2.

Definition scalar (name : string) : NamedType :=
  TScalar {| sc_Name := name; sc_Description := "" |}.

Definition field (name : string) (args : list Argument) (t : GType) : FieldDefinition :=
  {| fd_Name := name; fd_Description := ""; fd_Type := t; fd_Args := args;
     fd_DeprecationReason := "" |}.

Definition object (name : string) (fields : list FieldDefinition) : NamedType :=
  TObject {| obj_Name := name; obj_Description := "";
             obj_Fields := list_to_map (map (fun f => (fd_Name f, f)) fields);
             obj_Interfaces := [] |}.

Definition interface (name : string) (fields : list FieldDefinition) : NamedType :=
  TInterface {| ifc_Name := name; ifc_Description := "";
                ifc_Fields := list_to_map (map (fun f => (fd_Name f, f)) fields) |}.

Definition schema (types : list (string * NamedType)) (query : option string) : GraphQLSchema :=
  {| typeMap := list_to_map types; directives := [];
     queryType := query; mutationType := None; subscriptionType := None |}.

(** [interface Node { id: ID! name: String }] against
    [interface Node { id: ID! }]: field [name] is removed. *)
Definition nodeOld : Interface :=
  {| ifc_Name := "Node"; ifc_Description := "";
     ifc_Fields := <["id" := field "id" [] (NonNull ID_)]>
                   (<["name" := field "name" [] String_]> ∅) |}.
Definition nodeNew : Interface :=
  {| ifc_Name := "Node"; ifc_Description := "";
     ifc_Fields := <["id" := field "id" [] (NonNull ID_)]> ∅ |}.
Definition nodeSchemaOld : GraphQLSchema :=
  schema [("Node", TInterface nodeOld); ("ID", scalar "ID"); ("String", scalar "String")] None.
Definition nodeSchemaNew : GraphQLSchema :=
  schema [("Node", TInterface nodeNew); ("ID", scalar "ID"); ("String", scalar "String")] None.

(** [type User { id: ID! name: String! email: String }] against
    [type User { id: ID! name: String avatar: String }]. *)
Definition userOld : Object :=
  {| obj_Name := "User"; obj_Description := "";
     obj_Fields := <["id" := field "id" [] (NonNull ID_)]>
                   (<["name" := field "name" [] (NonNull String_)]>
                   (<["email" := field "email" [] String_]> ∅));
     obj_Interfaces := [] |}.
Definition userNew : Object :=
  {| obj_Name := "User"; obj_Description := "";
     obj_Fields := <["id" := field "id" [] (NonNull ID_)]>
                   (<["name" := field "name" [] String_]>
                   (<["avatar" := field "avatar" [] String_]> ∅));
     obj_Interfaces := [] |}.
Definition userSchemaOld : GraphQLSchema :=
  schema [("User", TObject userOld); ("ID", scalar "ID"); ("String", scalar "String")] None.
Definition userSchemaNew : GraphQLSchema :=
  schema [("User", TObject userNew); ("ID", scalar "ID"); ("String", scalar "String")] None.

(** The diff reports argument [a] of field [T.f] as removed, respectively
    as added with severity [ty]. *)
Definition isArgRemoved (T f a : string) (c : Change) : Prop :=
  Type_ c = ChangeTypeBreaking
  /\ Path c = T +:+ "." +:+ f +:+ "(" +:+ a +:+ ":)"
  /\ Message c = "Argument '" +:+ a +:+ "' was removed from field '"
                 +:+ T +:+ "." +:+ f +:+ "'".

Definition isArgAdded (ty : ChangeType) (T f a : string) (c : Change) : Prop :=
  Type_ c = ty
  /\ Path c = T +:+ "." +:+ f +:+ "(" +:+ a +:+ ":)"
  /\ Message c = "Argument '" +:+ a +:+ "' was added to field '"
                 +:+ T +:+ "." +:+ f +:+ "'".

Definition argument (name : string) (t : GType) (default : option string) : Argument :=
  {| PrivateName := name; arg_Type := t; DefaultValue := default;
     PrivateDescription := "" |}.

(** [type Query { users: String }] and the same with an argument
    [limit: Int!], [limit: Int! = 10] or [limit: Int] on [users]. *)
Definition queryType_ (args : list Argument) : Object :=
  {| obj_Name := "Query"; obj_Description := "";
     obj_Fields := <["users" := field "users" args String_]> ∅;
     obj_Interfaces := [] |}.
Definition querySchema (args : list Argument) : GraphQLSchema :=
  schema [("Query", TObject (queryType_ args)); ("Int", scalar "Int");
          ("String", scalar "String")] (Some "Query").
Definition limitRequired : Argument := argument "limit" (NonNull Int_) None.
Definition limitDefault : Argument := argument "limit" (NonNull Int_) (Some "10").
Definition limitOptional : Argument := argument "limit" Int_ None.

(** [interface Page { items(first: Int): String }] against
    [interface Page { items: String }]: argument [first] is removed. *)
Definition pageType (args : list Argument) : Interface :=
  {| ifc_Name := "Page"; ifc_Description := "";
     ifc_Fields := <["items" := field "items" args String_]> ∅ |}.
Definition pageSchema (args : list Argument) : GraphQLSchema :=
  schema [("Page", TInterface (pageType args)); ("Int", scalar "Int");
          ("String", scalar "String")] None.

(** [type T { a: String }] and [type T { a: String! }]. *)
Definition tSchema (t : GType) : GraphQLSchema :=
  schema [("T", object "T" [field "a" [] t]); ("String", scalar "String")] None.

(** [enum Color { ... }] alone in a schema. *)
Definition enumValue (name deprecationReason : string) : EnumValueDefinition :=
  {| ev_Name := name; ev_DeprecationReason := deprecationReason; ev_Description := "" |}.
Definition color (values : list EnumValueDefinition) : Enum :=
  {| en_Name := "Color"; en_Description := ""; en_Values := values |}.
Definition colorSchema (values : list EnumValueDefinition) : GraphQLSchema :=
  schema [("Color", TEnum (color values)); ("String", scalar "String")] None.

(** A Change for type [T] itself: its metadata name [T] as the type, or it
    is the Change for the description of [T]. *)
Definition isChangeForType (T : string) (c : Change) : Prop :=
  Meta c !! "typeName" = Some T \/ c = typeDescriptionChanged T.

(** A schema with other root operation types. *)
Definition withRoots (g : GraphQLSchema) (query mutation subscription : option string)
    : GraphQLSchema :=
  {| typeMap := typeMap g; directives := directives g;
     queryType := query; mutationType := mutation; subscriptionType := subscription |}.

(** Object types [Query] and [Root], both in the type map, either of which
    can be the query root; and an object type [Mutation]. *)
Definition rootsSchema (query mutation : option string) : GraphQLSchema :=
  {| typeMap := list_to_map
       [("Query", object "Query" [field "hello" [] String_]);
        ("Root", object "Root" [field "hello" [] String_]);
        ("Mutation", object "Mutation" [field "noop" [] String_]);
        ("String", scalar "String")];
     directives := [];
     queryType := query; mutationType := mutation; subscriptionType := None |}.

(** The name of the type a reference points to, below its wrappers. *)
Fixpoint namedTypeOf (t : GType) : string :=
  match t with
  | Named _ name _ => name
  | List t' | NonNull t' => namedTypeOf t'
  end.

(** Field [f] of object type [T] refers to a type that schema [g] lacks. *)
Definition dangling (g : GraphQLSchema) (T f : string) : Prop :=
  exists o fd, typeMap g !! T = Some (TObject o) /\ obj_Fields o !! f = Some fd
               /\ typeMap g !! namedTypeOf (fd_Type fd) = None.

(** [type T { a: Missing }] in a schema without a type [Missing]. *)
Definition danglingSchema : GraphQLSchema :=
  schema [("T", object "T" [field "a" [] (Named KObject "Missing" 7)]);
          ("String", scalar "String")] None.

(** The order the specification asks of the diff: severity rank first
    (BREAKING, then DANGEROUS, then NON_BREAKING), path second. *)
Definition severityRank (t : ChangeType) : nat :=
  match t with
  | ChangeTypeBreaking => 0
  | ChangeTypeDangerous => 1
  | ChangeTypeNonBreaking => 2
  end.

Definition rankedBefore (a b : Change) : bool :=
  Nat.ltb (severityRank (Type_ a)) (severityRank (Type_ b))
  || (Nat.eqb (severityRank (Type_ a)) (severityRank (Type_ b))
      && negb (String.ltb (Path b) (Path a))).

Fixpoint sortedBySeverityThenPath (l : list Change) : bool :=
  match l with
  | a :: ((b :: _) as rest) => rankedBefore a b && sortedBySeverityThenPath rest
  | _ => true
  end.

(** [type A { x: String! }], [type B { }] against
    [type A { x: String }], [type B { y: String }]. *)
Definition abSchemaOld : GraphQLSchema :=
  schema [("A", object "A" [field "x" [] (NonNull String_)]);
          ("B", object "B" []); ("String", scalar "String")] None.
Definition abSchemaNew : GraphQLSchema :=
  schema [("A", object "A" [field "x" [] String_]);
          ("B", object "B" [field "y" [] String_]); ("String", scalar "String")] None.

(** ** Further statements about the diff *)

(** The criticality label that goes with a severity in every Change the
    comparators build. *)
Definition criticalityOf (t : ChangeType) : string :=
  match t with
  | ChangeTypeBreaking => "HIGH"
  | ChangeTypeDangerous => "MEDIUM"
  | ChangeTypeNonBreaking => "LOW"
  end.

(** The diff reports the type of field [f] of type [T] as changed, with
    severity [ty]. *)
Definition isFieldTypeChanged (ty : ChangeType) (T f : string) (oldT newT : GType)
    (c : Change) : Prop :=
  Type_ c = ty /\ Path c = T +:+ "." +:+ f
  /\ Message c = "Field '" +:+ T +:+ "." +:+ f +:+ "' changed type from "
                 +:+ getTypeString oldT +:+ " to " +:+ getTypeString newT.

(** Every Change of a diff satisfies [P]. *)
Definition everyChange (P : Change -> Prop) (r : Result) : Prop :=
  match r with
  | Ok changes => Forall P changes
  | _ => True
  end.

(** Two runs of [DiffSchemas] agree up to the order of the changes. *)
Definition sameUpToOrder (r r' : Result) : Prop :=
  match r, r' with
  | Ok l, Ok l' => l ≡ₚ l'
  | Err m, Err m' => m = m'
  | Panic, Panic => True
  | _, _ => False
  end.

(** [type Node { id: ID! }] against [interface Node { id: ID! }]. *)
Definition nodeObject : Object :=
  {| obj_Name := "Node"; obj_Description := "";
     obj_Fields := <["id" := field "id" [] (NonNull ID_)]> ∅;
     obj_Interfaces := [] |}.
Definition nodeObjectSchema : GraphQLSchema :=
  schema [("Node", TObject nodeObject); ("ID", scalar "ID"); ("String", scalar "String")] None.

(** A path that starts at type [T]: the name itself, or the name followed
    by a dot. *)
Definition pathRootedAt (T p : string) : Prop :=
  p = T \/ exists rest, p = T +:+ "." +:+ rest.

(** The names of the arguments of a field. *)
Definition argNames (args : list Argument) : list string := map PrivateName args.

(** A schema without types. *)
Definition emptySchema : GraphQLSchema :=
  {| typeMap := ∅; directives := []; queryType := None; mutationType := None;
     subscriptionType := None |}.

(** ** The diff command (cmd/diff.go)

    The functions of the command that work on the result of [DiffSchemas]. *)

Record DiffSummary := {
  Breaking : nat;
  Dangerous : nat;
  NonBreaking : nat
}.

Definition filterChangesByType (changes : list Change) (changeType : ChangeType)
    : list Change :=
  List.filter (fun change => ChangeType_eqb (Type_ change) changeType) changes.

(** The loop of [calculateDiffSummary] counts one change after the other;
    the counters are Go ints, which the length of a slice cannot overflow. *)
Definition calculateDiffSummary (changes : list Change) : DiffSummary :=
  fold_left
    (fun summary change =>
       match Type_ change with
       | ChangeTypeBreaking =>
           {| Breaking := S (Breaking summary); Dangerous := Dangerous summary;
              NonBreaking := NonBreaking summary |}
       | ChangeTypeDangerous =>
           {| Breaking := Breaking summary; Dangerous := S (Dangerous summary);
              NonBreaking := NonBreaking summary |}
       | ChangeTypeNonBreaking =>
           {| Breaking := Breaking summary; Dangerous := Dangerous summary;
              NonBreaking := S (NonBreaking summary) |}
       end)
    changes
    {| Breaking := 0; Dangerous := 0; NonBreaking := 0 |}.

(** [outputDiffText], without the text: the changes in the order in which
    it hands them to [printChange], and the error it returns.  [failOnBreaking]
    and [failOnDangerous] are the settings diff.fail-on-breaking and
    diff.fail-on-dangerous. *)
Definition outputDiffText (failOnBreaking failOnDangerous : bool) (changes : list Change)
    : list Change * option string :=
  if Nat.eqb (length changes) 0 then ([], None)
  else
    let summary := calculateDiffSummary changes in
    let breakingChanges := filterChangesByType changes ChangeTypeBreaking in
    let dangerousChanges := filterChangesByType changes ChangeTypeDangerous in
    let nonBreakingChanges := filterChangesByType changes ChangeTypeNonBreaking in
    (breakingChanges ++ dangerousChanges ++ nonBreakingChanges,
     if failOnBreaking && Nat.ltb 0 (Breaking summary)
     then Some "breaking changes detected"
     else if failOnDangerous && Nat.ltb 0 (Dangerous summary)
     then Some "dangerous changes detected"
     else None).

(** Severity ranks do not decrease along the list. *)
Fixpoint severityAscending (l : list Change) : bool :=
  match l with
  | a :: ((b :: _) as rest) =>
      Nat.leb (severityRank (Type_ a)) (severityRank (Type_ b)) && severityAscending rest
  | _ => true
  end.

(** Neighbours in the list are related by [R]. *)
Fixpoint chain {A : Type} (R : A -> A -> Prop) (l : list A) : Prop :=
  match l with
  | a :: ((b :: _) as rest) => R a b /\ chain R rest
  | _ => True
  end.

(** The path of [a] is not after the path of [b]. *)
Definition pathNotAfter (a b : Change) : Prop := String.ltb (Path b) (Path a) = false.

(** The BREAKING changes come first, in the order of their paths. *)
Definition breakingFirst (l : list Change) : Prop :=
  exists bs rest,
    l = bs ++ rest
    /\ Forall (fun c => Type_ c = ChangeTypeBreaking) bs
    /\ Forall (fun c => Type_ c <> ChangeTypeBreaking) rest
    /\ chain pathNotAfter bs.

(** The sorted prefix, in reverse: the other changes, then the BREAKING
    ones with their paths descending. *)
Definition sinkInv (p : list Change) : Prop :=
  exists others bs,
    p = others ++ bs
    /\ Forall (fun c => Type_ c <> ChangeTypeBreaking) others
    /\ Forall (fun c => Type_ c = ChangeTypeBreaking) bs
    /\ chain (fun a b => pathNotAfter b a) bs.

(** The Changes for descriptions are the ones built without metadata. *)
Definition isDescriptionChange (c : Change) : bool := bool_decide (Meta c = ∅).

Definition DescriptionChange (c : Change) : Prop :=
  (exists tn, c = typeDescriptionChanged tn)
  \/ (exists tn fn, c = fieldDescriptionChanged tn fn).

Definition withIgnoreDescriptions (b : bool) (o : DiffOptions) : DiffOptions :=
  {| IgnoreDescriptions := b; IgnoreDirectives := IgnoreDirectives o;
     CustomRules := CustomRules o |}.

(** [m1] returns the changes of [m2] without those for descriptions, and
    leaves the oracle as [m2] does. *)
Definition withoutDescriptions (m1 m2 : Iter (list Change)) : Prop :=
  forall orc,
    m1 orc = (List.filter (fun c => negb (isDescriptionChange c)) (m2 orc).1, (m2 orc).2).

(** When the comparators find nothing to report: *)

(** for a field, types that [areTypesEqual] finds equal (deep equality of
    the two references, which reaches into the types they refer to), the
    same description unless descriptions are ignored, and arguments of the
    same names; *)
Definition unchangedField (opts : DiffOptions) (fo fn : FieldDefinition) : Prop :=
  areTypesEqual (fd_Type fo) (fd_Type fn) = true
  /\ (IgnoreDescriptions opts = true \/ fd_Description fo = fd_Description fn)
  /\ (forall a, In a (argNames (fd_Args fo)) <-> In a (argNames (fd_Args fn))).

(** for an object type, the same description unless descriptions are
    ignored, fields of the same names, and each field unchanged; *)
Definition unchangedObject (opts : DiffOptions) (o n : Object) : Prop :=
  (IgnoreDescriptions opts = true \/ obj_Description o = obj_Description n)
  /\ forall f,
       match obj_Fields o !! f, obj_Fields n !! f with
       | None, None => True
       | Some fo, Some fn => unchangedField opts fo fn
       | _, _ => False
       end.

(** for a type, the same kind and, for an object type, an unchanged
    object; *)
Definition unchangedType (opts : DiffOptions) (a b : NamedType) : Prop :=
  match a, b with
  | TObject o, TObject n => unchangedObject opts o n
  | TInterface _, TInterface _ | TUnion _, TUnion _ | TEnum _, TEnum _
  | TInputObject _, TInputObject _ | TScalar _, TScalar _ => True
  | _, _ => False
  end.

(** for two type maps, types of the same names, each unchanged. *)
Definition unchangedSchema (opts : DiffOptions) (A B : gmap string NamedType) : Prop :=
  forall T,
    match A !! T, B !! T with
    | None, None => True
    | Some a, Some b => unchangedType opts a b
    | _, _ => False
    end.

(** [type Query { user(id: ID!): String }] with the interfaces it
    implements, and [union SearchResult] with its member types. *)
Definition searchSchema (idType : GType) (interfaces members : list string) : GraphQLSchema :=
  schema
    [("Query",
      TObject {| obj_Name := "Query"; obj_Description := "";
                 obj_Fields := <["user" := field "user" [argument "id" idType None] String_]> ∅;
                 obj_Interfaces := interfaces |});
     ("SearchResult",
      TUnion {| un_Name := "SearchResult"; un_Description := ""; un_Types := members |})]
    (Some "Query").

(** The Changes the comparators build, each with the condition on the two
    type maps under which it is built. *)
Inductive Origin (opts : DiffOptions) (A B : gmap string NamedType) : Change -> Prop :=
| O_typeRemoved T t :
    A !! T = Some t -> B !! T = None -> Origin opts A B (typeRemoved T t)
| O_typeAdded T t :
    B !! T = Some t -> A !! T = None -> Origin opts A B (typeAdded T t)
| O_typeKindChanged T a b :
    A !! T = Some a -> B !! T = Some b -> getTypeKind a <> getTypeKind b ->
    Origin opts A B (typeKindChanged T a b)
| O_typeDescriptionChanged T o n :
    A !! T = Some (TObject o) -> B !! T = Some (TObject n) ->
    IgnoreDescriptions opts = false -> obj_Description o <> obj_Description n ->
    Origin opts A B (typeDescriptionChanged T)
| O_fieldRemoved T o n f fd :
    A !! T = Some (TObject o) -> B !! T = Some (TObject n) ->
    obj_Fields o !! f = Some fd -> obj_Fields n !! f = None ->
    Origin opts A B (fieldRemoved T f)
| O_fieldAdded T o n f fd :
    A !! T = Some (TObject o) -> B !! T = Some (TObject n) ->
    obj_Fields n !! f = Some fd -> obj_Fields o !! f = None ->
    Origin opts A B (fieldAdded T f)
| O_fieldTypeChanged T o n f fo fn :
    A !! T = Some (TObject o) -> B !! T = Some (TObject n) ->
    obj_Fields o !! f = Some fo -> obj_Fields n !! f = Some fn ->
    fd_Type fo <> fd_Type fn ->
    Origin opts A B (fieldTypeChanged T f (fd_Type fo) (fd_Type fn))
| O_fieldDescriptionChanged T o n f fo fn :
    A !! T = Some (TObject o) -> B !! T = Some (TObject n) ->
    obj_Fields o !! f = Some fo -> obj_Fields n !! f = Some fn ->
    IgnoreDescriptions opts = false -> fd_Description fo <> fd_Description fn ->
    Origin opts A B (fieldDescriptionChanged T f)
| O_argRemoved T o n f fo fn a arg :
    A !! T = Some (TObject o) -> B !! T = Some (TObject n) ->
    obj_Fields o !! f = Some fo -> obj_Fields n !! f = Some fn ->
    argMap (fd_Args fo) !! a = Some arg -> argMap (fd_Args fn) !! a = None ->
    Origin opts A B (argRemoved T f a)
| O_argAdded T o n f fo fn a arg :
    A !! T = Some (TObject o) -> B !! T = Some (TObject n) ->
    obj_Fields o !! f = Some fo -> obj_Fields n !! f = Some fn ->
    argMap (fd_Args fn) !! a = Some arg -> argMap (fd_Args fo) !! a = None ->
    Origin opts A B (argAdded T f a arg).

(** Other directives for a schema, and other values for the options that
    are not IgnoreDescriptions. *)
Definition withDirectives (g : GraphQLSchema) (ds : list Directive) : GraphQLSchema :=
  {| typeMap := typeMap g; directives := ds;
     queryType := queryType g; mutationType := mutationType g;
     subscriptionType := subscriptionType g |}.

Definition withOtherOptions (o : DiffOptions) (ignoreDirectives : bool)
    (customRules : list string) : DiffOptions :=
  {| IgnoreDescriptions := IgnoreDescriptions o; IgnoreDirectives := ignoreDirectives;
     CustomRules := customRules |}.

(** [enum Color { ... }] with [type Query { favorite: Color }]; [ref]
    stands for the Color object the field refers to. *)
Definition favoriteSchema (values : list EnumValueDefinition) (ref : nat) : GraphQLSchema :=
  schema [("Color", TEnum (color values));
          ("Query", object "Query" [field "favorite" [] (Named KEnum "Color" ref)])]
         (Some "Query").
(** * Properties *)

(** ** Iteration orders are permutations *)

Lemma insert_at_perm {A : Type} (d : nat) (x : A) (l : list A) :
  insert_at d x l ≡ₚ x :: l.
Proof.
  revert d; induction l as [|y l IH]; intros [|d]; simpl; try reflexivity.
  rewrite IH. apply perm_swap.
Qed.

Lemma visit_perm {A : Type} (o : Order) (l : list A) : visit o l ≡ₚ l.
Proof.
  revert o; induction l as [|x l IH]; intros o; simpl; [reflexivity|].
  destruct o as [|d o'].
  - now rewrite IH.
  - rewrite insert_at_perm. now rewrite IH.
Qed.

Lemma insert_at_app {A : Type} (x : A) (l1 l2 : list A) :
  insert_at (length l1) x (l1 ++ l2) = l1 ++ x :: l2.
Proof. induction l1 as [|y l1 IH]; simpl; [now destruct l2 | now rewrite IH]. Qed.

(** Every order of the entries is drawn by some [Order]. *)
Lemma visit_complete {A : Type} (l l' : list A) :
  l ≡ₚ l' -> exists o, visit o l = l'.
Proof.
  revert l'; induction l as [|x l IH]; intros l' HP.
  - apply Permutation_nil in HP; subst. now exists [].
  - assert (Hin : In x l') by (eapply Permutation_in; [exact HP | now left]).
    apply in_split in Hin as (l1 & l2 & ->).
    apply Permutation_cons_app_inv in HP.
    destruct (IH _ HP) as [o Ho].
    exists (length l1 :: o). simpl. rewrite Ho. apply insert_at_app.
Qed.

Lemma rangeMap_perm {V : Type} (m : gmap string V) (orc : Oracle) :
  fst (rangeMap m orc) ≡ₚ map_to_list m.
Proof. destruct orc as [|o orc]; simpl; [reflexivity | apply visit_perm]. Qed.

(** Every order of the entries of a map is the order of some run. *)
Lemma rangeMap_complete {V : Type} (m : gmap string V) (l : list (string * V))
    (rest : Oracle) :
  l ≡ₚ map_to_list m -> exists o, rangeMap m (o :: rest) = (l, rest).
Proof.
  intros HP. symmetry in HP. destruct (visit_complete _ _ HP) as [o Ho].
  exists o. simpl. now rewrite Ho.
Qed.

Lemma rangeMap_In {V : Type} (m : gmap string V) (orc : Oracle) (k : string) (v : V) :
  In (k, v) (fst (rangeMap m orc)) <-> m !! k = Some v.
Proof.
  rewrite <- elem_of_map_to_list, <- list_elem_of_In.
  now rewrite (rangeMap_perm m orc).
Qed.

(** ** Loops *)

Section Loops.
Context {A B : Type} (f : A -> Iter (list B)).

Lemma forEach_app (l1 l2 : list A) (orc : Oracle) :
    run (forEach f (l1 ++ l2)) orc
    = run (forEach f l1) orc ++ run (forEach f l2) (snd (forEach f l1 orc)).
Proof.
    revert orc; induction l1 as [|x l1 IH]; intros orc; [reflexivity|].
    unfold run in *; simpl; unfold bind; simpl.
    rewrite IH. now rewrite app_assoc.
Qed.

Lemma forEach_In_elim (l : list A) (orc : Oracle) (c : B) :
    In c (run (forEach f l) orc) ->
    exists x orc', In x l /\ In c (run (f x) orc').
Proof.
    revert orc; induction l as [|x l IH]; intros orc; [intros []|].
    unfold run in *; simpl; unfold bind; simpl.
    rewrite in_app_iff; intros [H|H].
    - exists x, orc; auto.
    - destruct (IH _ H) as (y & orc' & Hy & Hc). exists y, orc'; auto.
Qed.

Lemma forEach_In_intro (l : list A) (orc : Oracle) (x : A) (c : B) :
    In x l -> (forall orc', In c (run (f x) orc')) ->
    In c (run (forEach f l) orc).
Proof.
    intros Hx Hc; revert orc; induction l as [|y l IH]; intros orc; [destruct Hx|].
    unfold run in *; simpl; unfold bind; simpl. rewrite in_app_iff.
    destruct Hx as [->|Hx]; [left; apply Hc | right; now apply IH].
Qed.

Lemma forEach_nil (l : list A) (orc : Oracle) :
    (forall x orc', In x l -> run (f x) orc' = []) ->
    run (forEach f l) orc = [].
Proof.
    revert orc; induction l as [|x l IH]; intros orc H; [reflexivity|].
    unfold run in *; simpl; unfold bind; simpl.
    rewrite (H x orc) by now left. simpl. apply IH.
    intros y orc' Hy; apply H; now right.
Qed.

  (** The changes of a loop do not depend, as a multiset, on the order in
      which the entries are visited, when those of its body do not. *)
Lemma forEach_perm (l l' : list A) :
    l ≡ₚ l' ->
    (forall x orc1 orc2, In x l -> run (f x) orc1 ≡ₚ run (f x) orc2) ->
    forall orc orc', run (forEach f l) orc ≡ₚ run (forEach f l') orc'.
Proof.
    induction 1 as [|x l l' HP IH|x y l|l l' l'' HP1 IH1 HP2 IH2]; intros Hf orc orc'.
    - reflexivity.
    - unfold run in *; simpl; unfold bind; simpl.
      apply Permutation_app; [apply Hf; now left|].
      apply IH. intros z o1 o2 Hz; apply Hf; now right.
    - unfold run in *; simpl; unfold bind; simpl.
      rewrite !app_assoc.
      apply Permutation_app.
      + rewrite Permutation_app_comm.
        apply Permutation_app; apply Hf; simpl; auto.
      + clear -Hf. revert Hf.
        generalize (snd (f x (snd (f y orc)))) (snd (f y (snd (f x orc')))).
        induction l as [|z l IH]; intros o1 o2 Hf; [reflexivity|].
        simpl; unfold bind; simpl.
        apply Permutation_app; [apply Hf; simpl; auto|].
        apply IH. intros w a b Hw. apply Hf. simpl in *; tauto.
    - etransitivity; [apply (IH1 Hf orc orc)|].
      apply IH2. intros x o1 o2 Hx. apply Hf.
      eapply Permutation_in; [symmetry; exact HP1 | exact Hx].
Qed.

  (** A loop in which a single entry yields changes returns what the body
      returns for that entry. *)
Lemma forEach_single (l : list A) (x : A) (rest : list A) (orc : Oracle) :
    l ≡ₚ x :: rest ->
    (forall y orc', In y rest -> run (f y) orc' = []) ->
    exists orc', run (forEach f l) orc = run (f x) orc'.
Proof.
    intros HP Hrest.
    assert (Hin : In x l) by (eapply Permutation_in; [symmetry; exact HP | now left]).
    apply in_split in Hin as (l1 & l2 & ->).
    symmetry in HP. apply Permutation_cons_app_inv in HP.
    assert (H1 : forall y orc', In y l1 -> run (f y) orc' = []).
    { intros y o Hy. apply Hrest. eapply Permutation_in; [symmetry; exact HP|].
      apply in_or_app; now left. }
    assert (H2 : forall y orc', In y l2 -> run (f y) orc' = []).
    { intros y o Hy. apply Hrest. eapply Permutation_in; [symmetry; exact HP|].
      apply in_or_app; now right. }
    rewrite forEach_app, (forEach_nil l1 orc H1). simpl.
    exists (snd (forEach f l1 orc)).
    unfold run; simpl; unfold bind; simpl.
    fold (run (forEach f l2) (snd (f x (snd (forEach f l1 orc))))).
    rewrite (forEach_nil l2 _ H2). apply app_nil_r.
Qed.
End Loops.

(** ** The model of [sort.Slice] permutes the slice *)

Lemma sink_perm {A : Type} (lt : A -> A -> bool) (x : A) (p : list A) :
  sink lt x p ≡ₚ x :: p.
Proof.
  induction p as [|y p IH]; simpl; [reflexivity|].
  destruct (lt x y); [|reflexivity].
  rewrite IH. apply perm_swap.
Qed.

Lemma sortSlice_perm {A : Type} (lt : A -> A -> bool) (l : list A) :
  sortSlice lt l ≡ₚ l.
Proof.
  unfold sortSlice. rewrite <- Permutation_rev.
  assert (H : forall acc, fold_left (fun acc x => sink lt x acc) l acc ≡ₚ l ++ acc).
  { induction l as [|x l IH]; intros acc; simpl; [reflexivity|].
    rewrite IH, sink_perm. now rewrite Permutation_middle. }
  rewrite H. now rewrite app_nil_r.
Qed.

Lemma sortSlice_In {A : Type} (lt : A -> A -> bool) (l : list A) (x : A) :
  In x (sortSlice lt l) <-> In x l.
Proof.
  split; apply Permutation_in; [|symmetry]; apply sortSlice_perm.
Qed.

(** ** What the comparators return *)

Lemma flat_map_perm {A B : Type} (f : A -> list B) (l l' : list A) :
  l ≡ₚ l' -> flat_map f l ≡ₚ flat_map f l'.
Proof.
  induction 1 as [|x l l' HP IH|x y l|l l' l'' HP1 IH1 HP2 IH2]; simpl.
  - reflexivity.
  - now rewrite IH.
  - rewrite !app_assoc. apply Permutation_app; [apply Permutation_app_comm | reflexivity].
  - now rewrite IH1.
Qed.

Lemma flat_map_nil {A B : Type} (f : A -> list B) (l : list A) :
  (forall x, In x l -> f x = []) -> flat_map f l = [].
Proof.
  induction l as [|x l IH]; intros H; simpl; [reflexivity|].
  rewrite (H x) by now left. apply IH. intros y Hy; apply H; now right.
Qed.

Lemma removedOf_In {V : Type} (mk : string -> V -> Change) (m others : gmap string V)
    (orc : Oracle) (c : Change) :
  In c (flat_map (removedOf mk others) (fst (rangeMap m orc))) <->
  exists k v, m !! k = Some v /\ others !! k = None /\ c = mk k v.
Proof.
  rewrite in_flat_map. split.
  - intros ([k v] & Hin & Hc). apply rangeMap_In in Hin.
    unfold removedOf in Hc; simpl in Hc.
    destruct (others !! k) eqn:E; [destruct Hc|].
    destruct Hc as [<-|[]]. now exists k, v.
  - intros (k & v & Hm & Ho & ->). exists (k, v). split; [now apply rangeMap_In|].
    unfold removedOf; simpl. rewrite Ho. now left.
Qed.

Lemma compareFieldArguments_run tn fn oa na opts orc :
  run (compareFieldArguments tn fn oa na opts) orc
  = flat_map (removedOf (fun k _ => argRemoved tn fn k) (argMap na))
      (fst (rangeMap (argMap oa) orc))
    ++ flat_map (removedOf (argAdded tn fn) (argMap oa))
      (fst (rangeMap (argMap na) (snd (rangeMap (argMap oa) orc)))).
Proof. reflexivity. Qed.

Lemma compareField_run tn fn o n opts orc :
  run (compareField tn fn o n opts) orc
  = fieldTypeChanges tn fn o n ++ fieldDescriptionChanges tn fn o n opts
    ++ run (compareFieldArguments tn fn (fd_Args o) (fd_Args n) opts) orc.
Proof. reflexivity. Qed.

Lemma compareFields_run tn (o n : gmap string FieldDefinition) opts orc :
  exists orc1 orc2 orc3,
    run (compareFields tn o n opts) orc
    = flat_map (removedOf (fun k _ => fieldRemoved tn k) n) (fst (rangeMap o orc))
      ++ flat_map (removedOf (fun k _ => fieldAdded tn k) o) (fst (rangeMap n orc1))
      ++ run (forEach (modifiedField tn n opts) (fst (rangeMap o orc2))) orc3.
Proof.
  exists (snd (rangeMap o orc)), (snd (rangeMap n (snd (rangeMap o orc)))),
    (snd (rangeMap o (snd (rangeMap n (snd (rangeMap o orc)))))).
  reflexivity.
Qed.

Lemma compareObjectType_run tn o n opts orc :
  run (compareObjectType tn o n opts) orc
  = typeDescriptionChanges tn o n opts
    ++ run (compareFields tn (obj_Fields o) (obj_Fields n) opts) orc ++ [].
Proof. reflexivity. Qed.

Lemma compareType_object tn o n opts :
  compareType tn (TObject o) (TObject n) opts = compareObjectType tn o n opts.
Proof. reflexivity. Qed.

Lemma compareTypes_run (A B : GraphQLSchema) opts orc :
  exists orc1 orc2 orc3,
    run (compareTypes A B opts) orc
    = flat_map (removedOf typeRemoved (typeMap B)) (fst (rangeMap (typeMap A) orc))
      ++ flat_map (removedOf typeAdded (typeMap A)) (fst (rangeMap (typeMap B) orc1))
      ++ run (forEach (modifiedType (typeMap B) opts) (fst (rangeMap (typeMap A) orc2))) orc3.
Proof.
  exists (snd (rangeMap (typeMap A) orc)),
    (snd (rangeMap (typeMap B) (snd (rangeMap (typeMap A) orc)))),
    (snd (rangeMap (typeMap A) (snd (rangeMap (typeMap B) (snd (rangeMap (typeMap A) orc)))))).
  reflexivity.
Qed.

Lemma DiffSchemas_run (oldS newS : Schema) (A B : GraphQLSchema) options orc :
  Schema_ oldS = Some A -> Schema_ newS = Some B ->
  run (DiffSchemas (Some oldS) (Some newS) options) orc
  = Ok (sortSlice less (run (compareTypes A B (optionsOf options)) orc)).
Proof.
  intros HA HB. unfold run, DiffSchemas. rewrite HA, HB.
  unfold bind, ret; simpl. f_equal. f_equal.
  unfold compareSchemaDefinition, compareDirectives.
  destruct (negb _); now rewrite !app_nil_r.
Qed.

(** ** The multiset of changes does not depend on the iteration order *)

Lemma rangeMap_perm2 {V : Type} (m : gmap string V) (orc orc' : Oracle) :
  fst (rangeMap m orc) ≡ₚ fst (rangeMap m orc').
Proof. now rewrite !rangeMap_perm. Qed.

Lemma compareFieldArguments_perm tn fn oa na opts orc orc' :
  run (compareFieldArguments tn fn oa na opts) orc
  ≡ₚ run (compareFieldArguments tn fn oa na opts) orc'.
Proof.
  rewrite !compareFieldArguments_run.
  apply Permutation_app; apply flat_map_perm; apply rangeMap_perm2.
Qed.

Lemma compareField_perm tn fn o n opts orc orc' :
  run (compareField tn fn o n opts) orc ≡ₚ run (compareField tn fn o n opts) orc'.
Proof.
  rewrite !compareField_run.
  do 2 (apply Permutation_app; [reflexivity|]).
  apply compareFieldArguments_perm.
Qed.

Lemma compareFields_perm tn (o n : gmap string FieldDefinition) opts orc orc' :
  run (compareFields tn o n opts) orc ≡ₚ run (compareFields tn o n opts) orc'.
Proof.
  destruct (compareFields_run tn o n opts orc) as (a1 & a2 & a3 & ->).
  destruct (compareFields_run tn o n opts orc') as (b1 & b2 & b3 & ->).
  repeat apply Permutation_app; try (apply flat_map_perm; apply rangeMap_perm2).
  apply forEach_perm; [apply rangeMap_perm2|].
  intros [k v] o1 o2 _. unfold modifiedField; simpl.
  destruct (n !! k); [apply compareField_perm | reflexivity].
Qed.

Lemma compareType_perm tn o n opts orc orc' :
  run (compareType tn o n opts) orc ≡ₚ run (compareType tn o n opts) orc'.
Proof.
  unfold compareType. destruct (negb _); [reflexivity|].
  destruct o, n; try reflexivity.
  rewrite !compareObjectType_run.
  apply Permutation_app; [reflexivity|].
  apply Permutation_app; [apply compareFields_perm | reflexivity].
Qed.

Lemma compareTypes_perm A B opts orc orc' :
  run (compareTypes A B opts) orc ≡ₚ run (compareTypes A B opts) orc'.
Proof.
  destruct (compareTypes_run A B opts orc) as (a1 & a2 & a3 & ->).
  destruct (compareTypes_run A B opts orc') as (b1 & b2 & b3 & ->).
  repeat apply Permutation_app; try (apply flat_map_perm; apply rangeMap_perm2).
  apply forEach_perm; [apply rangeMap_perm2|].
  intros [k v] o1 o2 _. unfold modifiedType; simpl.
  destruct (typeMap B !! k); [apply compareType_perm | reflexivity].
Qed.

(** ** Membership in the diff *)

Lemma compareFields_removed_In tn (o n : gmap string FieldDefinition) opts f fd orc :
  o !! f = Some fd -> n !! f = None ->
  In (fieldRemoved tn f) (run (compareFields tn o n opts) orc).
Proof.
  intros Ho Hn. destruct (compareFields_run tn o n opts orc) as (a1 & a2 & a3 & ->).
  apply in_or_app; left.
  apply (removedOf_In (fun k _ => fieldRemoved tn k)). now exists f, fd.
Qed.

Lemma compareFields_added_In tn (o n : gmap string FieldDefinition) opts f fd orc :
  n !! f = Some fd -> o !! f = None ->
  In (fieldAdded tn f) (run (compareFields tn o n opts) orc).
Proof.
  intros Hn Ho. destruct (compareFields_run tn o n opts orc) as (a1 & a2 & a3 & ->).
  apply in_or_app; right. apply in_or_app; left.
  apply (removedOf_In (fun k _ => fieldAdded tn k)). now exists f, fd.
Qed.

Lemma compareFields_modified_In tn (o n : gmap string FieldDefinition) opts f a b c :
  o !! f = Some a -> n !! f = Some b ->
  (forall orc, In c (run (compareField tn f a b opts) orc)) ->
  forall orc, In c (run (compareFields tn o n opts) orc).
Proof.
  intros Ho Hn Hc orc.
  destruct (compareFields_run tn o n opts orc) as (a1 & a2 & a3 & ->).
  apply in_or_app; right. apply in_or_app; right.
  apply forEach_In_intro with (x := (f, a)); [now apply rangeMap_In|].
  unfold modifiedField; simpl. now rewrite Hn.
Qed.

Lemma compareTypes_modified_In A B opts T o n c :
  typeMap A !! T = Some o -> typeMap B !! T = Some n ->
  (forall orc, In c (run (compareType T o n opts) orc)) ->
  forall orc, In c (run (compareTypes A B opts) orc).
Proof.
  intros HA HB Hc orc.
  destruct (compareTypes_run A B opts orc) as (a1 & a2 & a3 & ->).
  apply in_or_app; right. apply in_or_app; right.
  apply forEach_In_intro with (x := (T, o)); [now apply rangeMap_In|].
  unfold modifiedType; simpl. now rewrite HB.
Qed.

Lemma compareType_object_In T o n opts c :
  (forall orc, In c (run (compareFields T (obj_Fields o) (obj_Fields n) opts) orc)) ->
  forall orc, In c (run (compareType T (TObject o) (TObject n) opts) orc).
Proof.
  intros Hc orc. rewrite compareType_object, compareObjectType_run.
  apply in_or_app; right. apply in_or_app; left. apply Hc.
Qed.

Lemma DiffSchemas_In A B options orc c :
  In c (run (compareTypes A B (optionsOf options)) orc) ->
  reports (eq c) (run (DiffSchemas (Some (schemaOf A)) (Some (schemaOf B)) options) orc).
Proof.
  intros Hc. rewrite (DiffSchemas_run _ _ A B) by reflexivity.
  exists c. split; [now apply sortSlice_In | reflexivity].
Qed.

(** ** The changes of a type present in both schemas *)

Lemma compareFieldArguments_shape tn fn oa na opts orc c :
  In c (run (compareFieldArguments tn fn oa na opts) orc) -> ModifiedChange c.
Proof.
  rewrite compareFieldArguments_run, in_app_iff.
  intros [H|H]; apply removedOf_In in H as (k & v & _ & _ & ->); constructor.
Qed.

Lemma compareField_shape tn fn o n opts orc c :
  In c (run (compareField tn fn o n opts) orc) -> ModifiedChange c.
Proof.
  rewrite compareField_run, !in_app_iff.
  unfold fieldTypeChanges, fieldDescriptionChanges.
  intros [H|[H|H]].
  - destruct (negb _); [destruct H as [<-|[]]; constructor | destruct H].
  - destruct (_ && _); [destruct H as [<-|[]]; constructor | destruct H].
  - eapply compareFieldArguments_shape; eauto.
Qed.

Lemma compareFields_shape tn (o n : gmap string FieldDefinition) opts orc c :
  In c (run (compareFields tn o n opts) orc) -> ModifiedChange c.
Proof.
  destruct (compareFields_run tn o n opts orc) as (a1 & a2 & a3 & ->).
  rewrite !in_app_iff. intros [H|[H|H]].
  - apply removedOf_In in H as (k & v & _ & _ & ->); constructor.
  - apply removedOf_In in H as (k & v & _ & _ & ->); constructor.
  - apply forEach_In_elim in H as ([k v] & orc' & _ & H).
    unfold modifiedField in H; simpl in H.
    destruct (n !! k); [eapply compareField_shape; eauto | destruct H].
Qed.

Lemma compareType_shape tn o n opts orc c :
  In c (run (compareType tn o n opts) orc) -> ModifiedChange c.
Proof.
  unfold compareType. destruct (negb _).
  - intros [<-|[]]; constructor.
  - destruct o, n; try (intros []).
    rewrite compareObjectType_run, !in_app_iff. unfold typeDescriptionChanges.
    intros [H|[H|[]]].
    + destruct (_ && _); [destruct H as [<-|[]]; constructor | destruct H].
    + eapply compareFields_shape; eauto.
Qed.

Lemma compareTypes_In_elim A B opts orc c :
  In c (run (compareTypes A B opts) orc) ->
  (exists k v, typeMap A !! k = Some v /\ typeMap B !! k = None /\ c = typeRemoved k v)
  \/ (exists k v, typeMap B !! k = Some v /\ typeMap A !! k = None /\ c = typeAdded k v)
  \/ ModifiedChange c.
Proof.
  destruct (compareTypes_run A B opts orc) as (a1 & a2 & a3 & ->).
  rewrite !in_app_iff. intros [H|[H|H]].
  - left. now apply removedOf_In in H.
  - right; left. now apply removedOf_In in H.
  - right; right. apply forEach_In_elim in H as ([k v] & orc' & _ & H).
    unfold modifiedType in H; simpl in H.
    destruct (typeMap B !! k); [eapply compareType_shape; eauto | destruct H].
Qed.

(** ** Strings *)

Lemma append_inv_head (p a b : string) : p +:+ a = p +:+ b -> a = b.
Proof. induction p as [|ch p IH]; simpl; [auto | intros H; injection H; auto]. Qed.

Lemma areTypesEqual_refl (t : GType) : areTypesEqual t t = true.
Proof.
  induction t as [k n r| |]; simpl; auto.
  rewrite String.eqb_refl, Nat.eqb_refl. now destruct k.
Qed.

(** ** Reflexivity *)

Lemma removedOf_same_nil {V : Type} (mk : string -> V -> Change) (m : gmap string V) orc :
  flat_map (removedOf mk m) (fst (rangeMap m orc)) = [].
Proof.
  apply flat_map_nil. intros [k v] Hin. apply rangeMap_In in Hin.
  unfold removedOf; simpl. now rewrite Hin.
Qed.

Lemma compareField_same tn fn f opts orc : run (compareField tn fn f f opts) orc = [].
Proof.
  rewrite compareField_run, compareFieldArguments_run.
  unfold fieldTypeChanges, fieldDescriptionChanges.
  rewrite areTypesEqual_refl, String.eqb_refl, andb_false_r; simpl.
  now rewrite !removedOf_same_nil.
Qed.

Lemma compareFields_same tn (m : gmap string FieldDefinition) opts orc :
  run (compareFields tn m m opts) orc = [].
Proof.
  destruct (compareFields_run tn m m opts orc) as (a1 & a2 & a3 & ->).
  rewrite !removedOf_same_nil; simpl.
  apply forEach_nil. intros [k v] orc' Hin. apply rangeMap_In in Hin.
  unfold modifiedField; simpl. rewrite Hin. apply compareField_same.
Qed.

Lemma compareType_same tn t opts orc : run (compareType tn t t opts) orc = [].
Proof.
  unfold compareType. rewrite String.eqb_refl; simpl.
  destruct t; try reflexivity.
  rewrite compareObjectType_run, compareFields_same. unfold typeDescriptionChanges.
  now rewrite String.eqb_refl, andb_false_r.
Qed.

Lemma compareTypes_same A opts orc : run (compareTypes A A opts) orc = [].
Proof.
  destruct (compareTypes_run A A opts orc) as (a1 & a2 & a3 & ->).
  rewrite !removedOf_same_nil; simpl.
  apply forEach_nil. intros [k v] orc' Hin. apply rangeMap_In in Hin.
  unfold modifiedType; simpl. rewrite Hin. apply compareType_same.
Qed.

(** C8. Reflexivity: comparing a schema against itself yields an empty
    Change sequence, with the default options ([options] nil) as with any
    others, and whatever order the maps are iterated in. *)
Theorem C8_reflexivity (g : GraphQLSchema) (sdl hash source : string)
    (options : option DiffOptions) (orc : Oracle) :
  let S := {| Schema_ := Some g; SDL := sdl; Hash := hash; Source := source |} in
  run (DiffSchemas (Some S) (Some S) options) orc = Ok [].
Proof.
  intros S. rewrite (DiffSchemas_run S S g g) by reflexivity.
  now rewrite compareTypes_same.
Qed.

(** ** Errors *)

(** C10. [DiffSchemas] returns an error exactly when one of the two schema
    arguments is nil, the error then being "both schemas must be provided";
    nil options are no error and stand for the default options. *)
Theorem C10_error_iff_nil_schema (oldSchema newSchema : option Schema)
    (options : option DiffOptions) (orc : Oracle) :
  ((exists msg, run (DiffSchemas oldSchema newSchema options) orc = Err msg)
   <-> oldSchema = None \/ newSchema = None)
  /\ (run (DiffSchemas oldSchema newSchema options) orc
      = Err "both schemas must be provided"
      <-> oldSchema = None \/ newSchema = None)
  /\ DiffSchemas oldSchema newSchema None
     = DiffSchemas oldSchema newSchema (Some defaultOptions).
Proof.
  repeat split.
  - intros [msg Hm]. destruct oldSchema as [o|], newSchema as [n|]; auto.
    unfold run, DiffSchemas in Hm.
    destruct (Schema_ o), (Schema_ n); discriminate Hm.
  - intros [->| ->]; [|destruct oldSchema]; eexists; reflexivity.
  - intros Hm. destruct oldSchema as [o|], newSchema as [n|]; auto.
    unfold run, DiffSchemas in Hm.
    destruct (Schema_ o), (Schema_ n); discriminate Hm.
  - intros [->| ->]; [|destruct oldSchema]; reflexivity.
Qed.

(** ** Existence changes *)

Lemma ModifiedChange_not_removed T c : ModifiedChange c -> ~ isTypeRemoved T c.
Proof.
  intros [] (Ht & Hp & Hm); simpl in *; try discriminate Hm.
  subst. repeat (injection Hm as Hm). simpl in Hm.
  apply (append_inv_head T) in Hm. simpl in Hm. discriminate Hm.
Qed.

Lemma ModifiedChange_not_added T c : ModifiedChange c -> ~ isTypeAdded T c.
Proof.
  intros [] (Ht & Hp & Hm); simpl in *; discriminate Hm || discriminate Ht.
Qed.

Lemma reports_removed_iff A B T opts orc :
  (exists c, In c (sortSlice less (run (compareTypes A B opts) orc)) /\ isTypeRemoved T c)
  <-> is_Some (typeMap A !! T) /\ typeMap B !! T = None.
Proof.
  split.
  - intros (c & Hin & HT). apply sortSlice_In in Hin.
    apply compareTypes_In_elim in Hin as [(k & v & HA & HB & ->)|[(k & v & _ & _ & ->)|HM]].
    + destruct HT as (_ & Hp & _); simpl in Hp; subst. eauto.
    + destruct HT as (Ht & _); discriminate.
    + now apply ModifiedChange_not_removed in HT.
  - intros ([v HA] & HB). exists (typeRemoved T v). split; [|now repeat split].
    apply sortSlice_In.
    destruct (compareTypes_run A B opts orc) as (a1 & a2 & a3 & ->).
    apply in_or_app; left. apply removedOf_In. now exists T, v.
Qed.

Lemma reports_added_iff A B T opts orc :
  (exists c, In c (sortSlice less (run (compareTypes A B opts) orc)) /\ isTypeAdded T c)
  <-> is_Some (typeMap B !! T) /\ typeMap A !! T = None.
Proof.
  split.
  - intros (c & Hin & HT). apply sortSlice_In in Hin.
    apply compareTypes_In_elim in Hin as [(k & v & _ & _ & ->)|[(k & v & HB & HA & ->)|HM]].
    + destruct HT as (Ht & _); discriminate.
    + destruct HT as (_ & Hp & _); simpl in Hp; subst. eauto.
    + now apply ModifiedChange_not_added in HT.
  - intros ([v HB] & HA). exists (typeAdded T v). split; [|now repeat split].
    apply sortSlice_In.
    destruct (compareTypes_run A B opts orc) as (a1 & a2 & a3 & ->).
    apply in_or_app; right. apply in_or_app; left. apply removedOf_In. now exists T, v.
Qed.

(** C9. Symmetry of existence changes: the diff of [A] against [B] reports
    type [T] as removed exactly when the diff of [B] against [A] reports
    [T] as added, whatever the options and the iteration orders of the two
    runs. *)
Theorem C9_removed_iff_added_reversed (A B : option Schema) (T : string)
    (options options' : option DiffOptions) (orc orc' : Oracle) :
  reports (isTypeRemoved T) (run (DiffSchemas A B options) orc)
  <-> reports (isTypeAdded T) (run (DiffSchemas B A options') orc').
Proof.
  destruct A as [a|], B as [b|]; try (simpl; tauto).
  destruct (Schema_ a) as [ga|] eqn:Ea, (Schema_ b) as [gb|] eqn:Eb;
    try (unfold run, DiffSchemas; rewrite Ea, Eb; simpl; tauto).
  rewrite (DiffSchemas_run a b ga gb), (DiffSchemas_run b a gb ga) by assumption.
  simpl. now rewrite reports_removed_iff, reports_added_iff.
Qed.

(** ** Runs on given schemas

    When the changes of a diff number at most one, every iteration order
    gives the same sequence. *)

Lemma DiffSchemas_nil A B options :
  run (compareTypes A B (optionsOf options)) [] = [] ->
  forall orc, run (DiffSchemas (Some (schemaOf A)) (Some (schemaOf B)) options) orc = Ok [].
Proof.
  intros H orc. rewrite (DiffSchemas_run _ _ A B) by reflexivity.
  pose proof (compareTypes_perm A B (optionsOf options) orc []) as HP.
  rewrite H in HP. apply Permutation_nil_r in HP. now rewrite HP.
Qed.

Lemma DiffSchemas_single A B options c :
  run (compareTypes A B (optionsOf options)) [] = [c] ->
  forall orc, run (DiffSchemas (Some (schemaOf A)) (Some (schemaOf B)) options) orc = Ok [c].
Proof.
  intros H orc. rewrite (DiffSchemas_run _ _ A B) by reflexivity.
  pose proof (compareTypes_perm A B (optionsOf options) orc []) as HP.
  rewrite H in HP. symmetry in HP. apply Permutation_length_1_inv in HP. now rewrite HP.
Qed.

(** ** Fields *)

(** C3, as the code has it: for every type that is an object type in both
    schemas and every field of it, whatever the field's type, a field that
    the old version has and the new one lacks gives a BREAKING change for
    it, and a field that only the new version has gives a NON_BREAKING (safe)
    one. *)
Theorem C3_object_field_removed_added (A B : GraphQLSchema) (T f : string)
    (o n : Object) (fd : FieldDefinition) (options : option DiffOptions) (orc : Oracle) :
  typeMap A !! T = Some (TObject o) ->
  typeMap B !! T = Some (TObject n) ->
  (obj_Fields o !! f = Some fd -> obj_Fields n !! f = None ->
   reports (isFieldRemoved T f)
     (run (DiffSchemas (Some (schemaOf A)) (Some (schemaOf B)) options) orc))
  /\ (obj_Fields n !! f = Some fd -> obj_Fields o !! f = None ->
      reports (isFieldAdded T f)
        (run (DiffSchemas (Some (schemaOf A)) (Some (schemaOf B)) options) orc)).
Proof.
  intros HA HB. split; intros H1 H2.
  - destruct (DiffSchemas_In A B options orc (fieldRemoved T f)) as (c & Hin & <-).
    + revert orc. apply (compareTypes_modified_In A B _ T _ _ _ HA HB).
      apply compareType_object_In. intros orc.
      eapply compareFields_removed_In; eauto.
    + exists (fieldRemoved T f). split; [exact Hin | now repeat split].
  - destruct (DiffSchemas_In A B options orc (fieldAdded T f)) as (c & Hin & <-).
    + revert orc. apply (compareTypes_modified_In A B _ T _ _ _ HA HB).
      apply compareType_object_In. intros orc.
      eapply compareFields_added_In; eauto.
    + exists (fieldAdded T f). split; [exact Hin | now repeat split].
Qed.

Lemma C3_object_field_removed_added_witness :
  (typeMap userSchemaOld !! "User" = Some (TObject userOld)
   /\ typeMap userSchemaNew !! "User" = Some (TObject userNew)
   /\ obj_Fields userOld !! "email" = Some (field "email" [] String_)
   /\ obj_Fields userNew !! "email" = None
   /\ obj_Fields userNew !! "avatar" = Some (field "avatar" [] String_)
   /\ obj_Fields userOld !! "avatar" = None)
  /\ reports (isFieldRemoved "User" "email")
       (run (DiffSchemas (Some (schemaOf userSchemaOld)) (Some (schemaOf userSchemaNew)) None) [])
  /\ reports (isFieldAdded "User" "avatar")
       (run (DiffSchemas (Some (schemaOf userSchemaOld)) (Some (schemaOf userSchemaNew)) None) []).
Proof.
  assert (H1 : typeMap userSchemaOld !! "User" = Some (TObject userOld)) by reflexivity.
  assert (H2 : typeMap userSchemaNew !! "User" = Some (TObject userNew)) by reflexivity.
  assert (H3 : obj_Fields userOld !! "email" = Some (field "email" [] String_)) by reflexivity.
  assert (H4 : obj_Fields userNew !! "email" = None) by reflexivity.
  assert (H5 : obj_Fields userNew !! "avatar" = Some (field "avatar" [] String_)) by reflexivity.
  assert (H6 : obj_Fields userOld !! "avatar" = None) by reflexivity.
  split; [repeat split; assumption|]. split.
  - exact (proj1 (C3_object_field_removed_added userSchemaOld userSchemaNew "User" "email"
                    userOld userNew _ None [] H1 H2) H3 H4).
  - exact (proj2 (C3_object_field_removed_added userSchemaOld userSchemaNew "User" "avatar"
                    userOld userNew _ None [] H1 H2) H5 H6).
Defined.

(** The interface comparator is a placeholder: a field removed from an
    interface type that both schemas have leaves the diff empty. *)
Lemma C3_interface_counterexample :
  typeMap nodeSchemaOld !! "Node" = Some (TInterface nodeOld)
  /\ typeMap nodeSchemaNew !! "Node" = Some (TInterface nodeNew)
  /\ ifc_Fields nodeOld !! "name" = Some (field "name" [] String_)
  /\ ifc_Fields nodeNew !! "name" = None
  /\ forall orc,
       run (DiffSchemas (Some (schemaOf nodeSchemaOld)) (Some (schemaOf nodeSchemaNew)) None) orc
       = Ok [].
Proof.
  repeat split. apply DiffSchemas_nil; vm_compute; reflexivity.
Qed.

(** ** Arguments *)

Lemma compareField_args_In tn fn o n opts c :
  (forall orc, In c (run (compareFieldArguments tn fn (fd_Args o) (fd_Args n) opts) orc)) ->
  forall orc, In c (run (compareField tn fn o n opts) orc).
Proof.
  intros H orc. rewrite compareField_run. apply in_or_app; right.
  apply in_or_app; right. apply H.
Qed.

Lemma compareFieldArguments_removed_In tn fn oa na opts a arg orc :
  argMap oa !! a = Some arg -> argMap na !! a = None ->
  In (argRemoved tn fn a) (run (compareFieldArguments tn fn oa na opts) orc).
Proof.
  intros Ho Hn. rewrite compareFieldArguments_run. apply in_or_app; left.
  apply (removedOf_In (fun k _ => argRemoved tn fn k)). now exists a, arg.
Qed.

Lemma compareFieldArguments_added_In tn fn oa na opts a arg orc :
  argMap na !! a = Some arg -> argMap oa !! a = None ->
  In (argAdded tn fn a arg) (run (compareFieldArguments tn fn oa na opts) orc).
Proof.
  intros Hn Ho. rewrite compareFieldArguments_run. apply in_or_app; right.
  apply (removedOf_In (argAdded tn fn)). now exists a, arg.
Qed.

(** A change found for the arguments of a field that both versions of an
    object type have is in the diff. *)
Lemma DiffSchemas_argument_In A B T f o n fo fn options c :
  typeMap A !! T = Some (TObject o) ->
  typeMap B !! T = Some (TObject n) ->
  obj_Fields o !! f = Some fo ->
  obj_Fields n !! f = Some fn ->
  (forall orc, In c (run (compareFieldArguments T f (fd_Args fo) (fd_Args fn)
                            (optionsOf options)) orc)) ->
  forall orc,
    In c (sortSlice less (run (compareTypes A B (optionsOf options)) orc)).
Proof.
  intros HA HB Ho Hn Hc orc. apply sortSlice_In. revert orc.
  apply (compareTypes_modified_In A B _ T _ _ _ HA HB).
  apply compareType_object_In.
  apply (compareFields_modified_In T _ _ _ f _ _ _ Ho Hn).
  now apply compareField_args_In.
Qed.

(** The argument maps in terms of the argument lists. *)
Lemma argMap_lookup_None (args : list Argument) (a : string) :
  argMap args !! a = None <-> forall x, In x args -> PrivateName x <> a.
Proof.
  unfold argMap.
  assert (H : forall m : gmap string Argument,
             fold_left (fun m arg => <[PrivateName arg := arg]> m) args m !! a = None
             <-> m !! a = None /\ forall x, In x args -> PrivateName x <> a).
  { induction args as [|y args IH]; intros m; simpl.
    - split; [intros H; split; [exact H | intros x []] | intros [H _]; exact H].
    - rewrite IH. rewrite lookup_insert_None. split.
      + intros [[Hm Hy] Hr]. split; [exact Hm|]. intros x [<-|Hx]; auto.
      + intros [Hm Hr]. repeat split; auto. }
  rewrite H. rewrite lookup_empty. tauto.
Qed.

Lemma argMap_lookup_Some (args : list Argument) (a : string) (arg : Argument) :
  argMap args !! a = Some arg -> In arg args /\ PrivateName arg = a.
Proof.
  unfold argMap.
  assert (H : forall m : gmap string Argument,
             fold_left (fun m arg => <[PrivateName arg := arg]> m) args m !! a = Some arg ->
             m !! a = Some arg \/ (In arg args /\ PrivateName arg = a)).
  { induction args as [|y args IH]; intros m; simpl; [auto|].
    intros Hl. apply IH in Hl as [Hl|[Hin Hn]]; [|auto].
    apply lookup_insert_Some in Hl as [[<- <-]|[_ Hl]]; auto. }
  intros Hl. apply H in Hl as [Hl|Hl]; [|exact Hl].
  rewrite lookup_empty in Hl. discriminate Hl.
Qed.

(** C6, as the code has it: for every field that both versions of an object
    type have, a new argument whose type is NonNull and which has no default
    value gives a BREAKING change, a new argument whose type is not NonNull
    gives a NON_BREAKING (safe) one, and an argument that the new version
    lacks gives a BREAKING one. *)
Theorem C6_object_field_arguments (A B : GraphQLSchema) (T f a : string)
    (o n : Object) (fo fn : FieldDefinition) (options : option DiffOptions)
    (orc : Oracle) :
  typeMap A !! T = Some (TObject o) ->
  typeMap B !! T = Some (TObject n) ->
  obj_Fields o !! f = Some fo ->
  obj_Fields n !! f = Some fn ->
  let diff := run (DiffSchemas (Some (schemaOf A)) (Some (schemaOf B)) options) orc in
  (forall arg t,
      argMap (fd_Args fn) !! a = Some arg -> argMap (fd_Args fo) !! a = None ->
      arg_Type arg = NonNull t -> DefaultValue arg = None ->
      reports (isArgAdded ChangeTypeBreaking T f a) diff)
  /\ (forall arg,
      argMap (fd_Args fn) !! a = Some arg -> argMap (fd_Args fo) !! a = None ->
      (forall t, arg_Type arg <> NonNull t) ->
      reports (isArgAdded ChangeTypeNonBreaking T f a) diff)
  /\ (forall arg,
      argMap (fd_Args fo) !! a = Some arg -> argMap (fd_Args fn) !! a = None ->
      reports (isArgRemoved T f a) diff).
Proof.
  intros HA HB Ho Hn diff. subst diff.
  rewrite (DiffSchemas_run _ _ A B) by reflexivity. simpl.
  repeat split.
  - intros arg t Hnew Hold Hty _. exists (argAdded T f a arg). split.
    + apply (DiffSchemas_argument_In A B T f o n fo fn); auto.
      intros orc'. now apply compareFieldArguments_added_In.
    + unfold isArgAdded, argAdded; simpl. now rewrite Hty.
  - intros arg Hnew Hold Hty. exists (argAdded T f a arg). split.
    + apply (DiffSchemas_argument_In A B T f o n fo fn); auto.
      intros orc'. now apply compareFieldArguments_added_In.
    + unfold isArgAdded, argAdded; simpl.
      destruct (arg_Type arg) eqn:E; simpl; auto. now destruct (Hty g).
  - intros arg Hold Hnew. exists (argRemoved T f a). split.
    + apply (DiffSchemas_argument_In A B T f o n fo fn); auto.
      intros orc'. eapply compareFieldArguments_removed_In; eauto.
    + now repeat split.
Qed.

Lemma C6_object_field_arguments_witness :
  (typeMap (querySchema []) !! "Query" = Some (TObject (queryType_ []))
   /\ obj_Fields (queryType_ []) !! "users" = Some (field "users" [] String_)
   /\ argMap [limitRequired] !! "limit" = Some limitRequired
   /\ argMap [] !! "limit" = None
   /\ arg_Type limitRequired = NonNull Int_
   /\ DefaultValue limitRequired = None)
  /\ reports (isArgAdded ChangeTypeBreaking "Query" "users" "limit")
       (run (DiffSchemas (Some (schemaOf (querySchema [])))
               (Some (schemaOf (querySchema [limitRequired]))) None) [])
  /\ reports (isArgAdded ChangeTypeNonBreaking "Query" "users" "limit")
       (run (DiffSchemas (Some (schemaOf (querySchema [])))
               (Some (schemaOf (querySchema [limitOptional]))) None) [])
  /\ reports (isArgRemoved "Query" "users" "limit")
       (run (DiffSchemas (Some (schemaOf (querySchema [limitOptional])))
               (Some (schemaOf (querySchema []))) None) []).
Proof.
  split; [repeat split|].
  assert (HT : forall args, typeMap (querySchema args) !! "Query"
                            = Some (TObject (queryType_ args))) by reflexivity.
  assert (HF : forall args, obj_Fields (queryType_ args) !! "users"
                            = Some (field "users" args String_)) by reflexivity.
  repeat split.
  - refine (proj1 (C6_object_field_arguments (querySchema []) (querySchema [limitRequired])
                     "Query" "users" "limit" _ _ _ _ None [] (HT _) (HT _) (HF _) (HF _))
              limitRequired Int_ _ _ _ _); reflexivity.
  - refine (proj1 (proj2 (C6_object_field_arguments (querySchema [])
                     (querySchema [limitOptional])
                     "Query" "users" "limit" _ _ _ _ None [] (HT _) (HT _) (HF _) (HF _)))
              limitOptional _ _ _); try reflexivity.
    intros t; discriminate.
  - refine (proj2 (proj2 (C6_object_field_arguments (querySchema [limitOptional])
                     (querySchema [])
                     "Query" "users" "limit" _ _ _ _ None [] (HT _) (HT _) (HF _) (HF _)))
              limitOptional _ _); reflexivity.
Defined.

(** A new argument [limit: Int! = 10], which has a default value, is
    reported as BREAKING, and nothing else is reported; and an argument
    removed from a field of an interface type is not reported at all. *)
Lemma C6_counterexample :
  (DefaultValue limitDefault = Some "10"
   /\ Type_ (argAdded "Query" "users" "limit" limitDefault) = ChangeTypeBreaking
   /\ forall orc,
        run (DiffSchemas (Some (schemaOf (querySchema [])))
               (Some (schemaOf (querySchema [limitDefault]))) None) orc
        = Ok [argAdded "Query" "users" "limit" limitDefault])
  /\ forall orc,
       run (DiffSchemas (Some (schemaOf (pageSchema [argument "first" Int_ None])))
              (Some (schemaOf (pageSchema []))) None) orc
       = Ok [].
Proof.
  repeat split.
  - apply DiffSchemas_single; vm_compute; reflexivity.
  - apply DiffSchemas_nil; vm_compute; reflexivity.
Qed.

(** ** Nullability *)

Lemma areTypesEqual_NonNull (t : GType) :
  areTypesEqual t (NonNull t) = false /\ areTypesEqual (NonNull t) t = false.
Proof. induction t; simpl; auto. Qed.

(** Wrapping a type in NonNull is never a widening, unwrapping always is. *)
Lemma isTypeWidening_NonNull (t : GType) :
  isTypeWidening t (NonNull t) = false /\ isTypeWidening (NonNull t) t = true.
Proof.
  induction t as [k n r|t IH|t IH]; simpl.
  - rewrite String.eqb_refl, Nat.eqb_refl. now destruct k.
  - split; [reflexivity | apply areTypesEqual_refl].
  - simpl in IH. exact IH.
Qed.

Lemma compareField_nullability tn fn (args : list Argument) (t : GType) opts orc :
  let nullable := field fn args t in
  let nonNull := field fn args (NonNull t) in
  (run (compareField tn fn nullable nonNull opts) orc
   = [fieldTypeChanged tn fn t (NonNull t)]
   /\ Type_ (fieldTypeChanged tn fn t (NonNull t)) = ChangeTypeBreaking)
  /\ (run (compareField tn fn nonNull nullable opts) orc
      = [fieldTypeChanged tn fn (NonNull t) t]
      /\ Type_ (fieldTypeChanged tn fn (NonNull t) t) = ChangeTypeDangerous).
Proof.
  intros nullable nonNull.
  destruct (areTypesEqual_NonNull t) as [E1 E2].
  destruct (isTypeWidening_NonNull t) as [W1 W2].
  assert (Hrun : forall a b, areTypesEqual a b = false ->
            run (compareField tn fn (field fn args a) (field fn args b) opts) orc
            = [fieldTypeChanged tn fn a b]).
  { intros a b E. rewrite compareField_run, compareFieldArguments_run.
    unfold fieldTypeChanges, fieldDescriptionChanges, field;
      cbn [fd_Type fd_Args fd_Description].
    rewrite E, !removedOf_same_nil, String.eqb_refl, andb_false_r. reflexivity. }
  subst nullable nonNull. rewrite !Hrun by assumption.
  unfold fieldTypeChanged; cbn [Type_]. now rewrite W1, W2.
Qed.

(** C7. Nullability asymmetry: from [type T { a: String }] to
    [type T { a: String! }] the diff is exactly one Change, at path [T.a],
    BREAKING; in the reverse direction it is exactly one Change at path
    [T.a], DANGEROUS.  This holds on every run. *)
Theorem C7_nullability_asymmetry (orc : Oracle) :
  (exists c,
      run (DiffSchemas (Some (schemaOf (tSchema String_)))
             (Some (schemaOf (tSchema (NonNull String_)))) None) orc = Ok [c]
      /\ Path c = "T.a" /\ Type_ c = ChangeTypeBreaking)
  /\ (exists c,
      run (DiffSchemas (Some (schemaOf (tSchema (NonNull String_))))
             (Some (schemaOf (tSchema String_))) None) orc = Ok [c]
      /\ Path c = "T.a" /\ Type_ c = ChangeTypeDangerous).
Proof.
  split.
  - exists (fieldTypeChanged "T" "a" String_ (NonNull String_)).
    split; [apply DiffSchemas_single; vm_compute; reflexivity | now split].
  - exists (fieldTypeChanged "T" "a" (NonNull String_) String_).
    split; [apply DiffSchemas_single; vm_compute; reflexivity | now split].
Qed.

(** ** Placeholders *)

Lemma compareType_enum T (o n : Enum) opts orc :
  run (compareType T (TEnum o) (TEnum n) opts) orc = [].
Proof. reflexivity. Qed.

Lemma compareType_interface T (o n : Interface) opts orc :
  run (compareType T (TInterface o) (TInterface n) opts) orc = [].
Proof. reflexivity. Qed.

(** Removing [RED] from [enum Color { RED GREEN }] and adding [BLUE] to it
    both leave the diff empty. *)
Lemma C4_counterexample :
  (forall orc,
      run (DiffSchemas
             (Some (schemaOf (colorSchema [enumValue "RED" ""; enumValue "GREEN" ""])))
             (Some (schemaOf (colorSchema [enumValue "GREEN" ""]))) None) orc = Ok [])
  /\ (forall orc,
      run (DiffSchemas
             (Some (schemaOf (colorSchema [enumValue "RED" ""; enumValue "GREEN" ""])))
             (Some (schemaOf (colorSchema [enumValue "RED" ""; enumValue "GREEN" "";
                                           enumValue "BLUE" ""]))) None) orc = Ok []).
Proof. split; apply DiffSchemas_nil; vm_compute; reflexivity. Qed.

(** C5, as the code has it: the comparison of the schema definitions is a
    placeholder that returns no Change, and the diff does not depend on the
    root operation types of either schema: a root that is removed, changed
    or introduced shows in the diff only through the types that leave or
    enter the type map. *)
Theorem C5_roots_not_compared (A B : GraphQLSchema)
    (q m s q' m' s' : option string) (options : option DiffOptions) (orc : Oracle) :
  compareSchemaDefinition (withRoots A q m s) (withRoots B q' m' s') (optionsOf options) = []
  /\ run (DiffSchemas (Some (schemaOf (withRoots A q m s)))
            (Some (schemaOf (withRoots B q' m' s'))) options) orc
     = run (DiffSchemas (Some (schemaOf A)) (Some (schemaOf B)) options) orc.
Proof. split; reflexivity. Qed.

(** The query root changes from [Query] to [Root] and a mutation root is
    introduced, and the other way round a root is changed and one removed:
    the diff is empty both times. *)
Lemma C5_counterexample :
  queryType (rootsSchema (Some "Query") None) <> queryType (rootsSchema (Some "Root") (Some "Mutation"))
  /\ mutationType (rootsSchema (Some "Query") None) = None
  /\ mutationType (rootsSchema (Some "Root") (Some "Mutation")) = Some "Mutation"
  /\ (forall orc,
      run (DiffSchemas (Some (schemaOf (rootsSchema (Some "Query") None)))
             (Some (schemaOf (rootsSchema (Some "Root") (Some "Mutation")))) None) orc = Ok [])
  /\ (forall orc,
      run (DiffSchemas (Some (schemaOf (rootsSchema (Some "Root") (Some "Mutation"))))
             (Some (schemaOf (rootsSchema (Some "Query") None))) None) orc = Ok []).
Proof.
  repeat split; try discriminate; apply DiffSchemas_nil; vm_compute; reflexivity.
Qed.

(** ** Integrity *)

(** C2, as the code has it: [DiffSchemas] does not check that type
    references resolve.  For any two schemas that are provided, with or
    without dangling references, it returns a Change list and no error. *)
Theorem C2_no_integrity_error (A B : GraphQLSchema) (sdl hash source sdl' hash' source' : string)
    (options : option DiffOptions) (orc : Oracle) :
  exists changes,
    run (DiffSchemas
           (Some {| Schema_ := Some A; SDL := sdl; Hash := hash; Source := source |})
           (Some {| Schema_ := Some B; SDL := sdl'; Hash := hash'; Source := source' |})
           options) orc
    = Ok changes.
Proof. eexists. now apply DiffSchemas_run. Qed.

(** Field [T.a] of [danglingSchema] refers to a type [Missing] that the
    schema lacks; the diff of the schema against itself is an empty Change
    list, and its diff against a well-formed schema is a Change list. *)
Lemma C2_counterexample :
  dangling danglingSchema "T" "a"
  /\ (forall orc,
      run (DiffSchemas (Some (schemaOf danglingSchema)) (Some (schemaOf danglingSchema)) None) orc
      = Ok [])
  /\ (forall orc,
      run (DiffSchemas (Some (schemaOf danglingSchema)) (Some (schemaOf (tSchema String_))) None)
        orc
      = Ok [fieldTypeChanged "T" "a" (Named KObject "Missing" 7) String_]).
Proof.
  repeat split.
  - eexists _, _. repeat split; reflexivity.
  - apply DiffSchemas_nil; vm_compute; reflexivity.
  - apply DiffSchemas_single; vm_compute; reflexivity.
Qed.

(** ** Order of the diff *)

Lemma compareFields_segments tn (o n : gmap string FieldDefinition) opts orc :
  exists r a m,
    run (compareFields tn o n opts) orc = r ++ a ++ m
    /\ r ≡ₚ flat_map (removedOf (fun k _ => fieldRemoved tn k) n) (map_to_list o)
    /\ a ≡ₚ flat_map (removedOf (fun k _ => fieldAdded tn k) o) (map_to_list n)
    /\ m ≡ₚ run (forEach (modifiedField tn n opts) (map_to_list o)) [].
Proof.
  destruct (compareFields_run tn o n opts orc) as (a1 & a2 & a3 & ->).
  eexists _, _, _. split; [reflexivity|]. repeat split.
  - apply flat_map_perm, rangeMap_perm.
  - apply flat_map_perm, rangeMap_perm.
  - apply forEach_perm; [apply rangeMap_perm|].
    intros [k v] o1 o2 _. unfold modifiedField; simpl.
    destruct (n !! k); [apply compareField_perm | reflexivity].
Qed.

(** When no type is removed or added and a single type [T] is modified,
    the changes are those of [T], in the order its comparator gives them. *)
Lemma compareTypes_one_modified A B opts T o n orc :
  flat_map (removedOf typeRemoved (typeMap B)) (map_to_list (typeMap A)) = [] ->
  flat_map (removedOf typeAdded (typeMap A)) (map_to_list (typeMap B)) = [] ->
  typeMap A !! T = Some o ->
  typeMap B !! T = Some n ->
  (forall e orc', In e (map_to_list (delete T (typeMap A))) ->
                  run (modifiedType (typeMap B) opts e) orc' = []) ->
  exists orc', run (compareTypes A B opts) orc = run (compareType T o n opts) orc'.
Proof.
  intros Hr Ha HA HB Hrest.
  destruct (compareTypes_run A B opts orc) as (a1 & a2 & a3 & ->).
  assert (E1 : flat_map (removedOf typeRemoved (typeMap B)) (rangeMap (typeMap A) orc).1 = []).
  { apply Permutation_nil_r. rewrite <- Hr. apply flat_map_perm, rangeMap_perm. }
  assert (E2 : flat_map (removedOf typeAdded (typeMap A)) (rangeMap (typeMap B) a1).1 = []).
  { apply Permutation_nil_r. rewrite <- Ha. apply flat_map_perm, rangeMap_perm. }
  rewrite E1, E2; simpl.
  destruct (forEach_single (modifiedType (typeMap B) opts) (rangeMap (typeMap A) a2).1
              (T, o) (map_to_list (delete T (typeMap A))) a3) as [orc' E].
  - rewrite rangeMap_perm. symmetry. now apply map_to_list_delete.
  - intros y orc' Hy. now apply Hrest.
  - exists orc'. rewrite E. unfold modifiedType; simpl. now rewrite HB.
Qed.

(** C1 fails on the code.  On the schemas of the specification's end-to-end
    scenario every run returns the removed field (BREAKING), then the added
    field (NON_BREAKING), then the type change (DANGEROUS): the comparator
    handed to [sort.Slice] orders BREAKING before the rest and leaves
    DANGEROUS and NON_BREAKING unordered, so the diff is not sorted by
    severity rank. *)
Theorem C1_unsorted_on_every_run (orc : Oracle) :
  run (DiffSchemas (Some (schemaOf userSchemaOld)) (Some (schemaOf userSchemaNew)) None) orc
  = Ok [fieldRemoved "User" "email"; fieldAdded "User" "avatar";
        fieldTypeChanged "User" "name" (NonNull String_) String_]
  /\ map Type_ [fieldRemoved "User" "email"; fieldAdded "User" "avatar";
                fieldTypeChanged "User" "name" (NonNull String_) String_]
     = [ChangeTypeBreaking; ChangeTypeNonBreaking; ChangeTypeDangerous]
  /\ sortedBySeverityThenPath
       [fieldRemoved "User" "email"; fieldAdded "User" "avatar";
        fieldTypeChanged "User" "name" (NonNull String_) String_] = false.
Proof.
  split; [|split; vm_compute; reflexivity].
  rewrite (DiffSchemas_run _ _ userSchemaOld userSchemaNew) by reflexivity.
  assert (Hrest : map_to_list (delete "User" (typeMap userSchemaOld))
                  = [("String", scalar "String"); ("ID", scalar "ID")])
    by (vm_compute; reflexivity).
  destruct (compareTypes_one_modified userSchemaOld userSchemaNew (optionsOf None)
              "User" (TObject userOld) (TObject userNew) orc) as [orc' ->];
    try (vm_compute; reflexivity).
  { intros e o' He. rewrite Hrest in He.
    destruct He as [<-|[<-|[]]]; vm_compute; reflexivity. }
  rewrite compareType_object, compareObjectType_run.
  destruct (compareFields_segments "User" (obj_Fields userOld) (obj_Fields userNew)
              (optionsOf None) orc') as (r & a & m & -> & Hr & Ha & Hm).
  assert (Er : flat_map (removedOf (fun k _ => fieldRemoved "User" k) (obj_Fields userNew))
                 (map_to_list (obj_Fields userOld)) = [fieldRemoved "User" "email"])
    by (vm_compute; reflexivity).
  assert (Ea : flat_map (removedOf (fun k _ => fieldAdded "User" k) (obj_Fields userOld))
                 (map_to_list (obj_Fields userNew)) = [fieldAdded "User" "avatar"])
    by (vm_compute; reflexivity).
  assert (Em : run (forEach (modifiedField "User" (obj_Fields userNew) (optionsOf None))
                      (map_to_list (obj_Fields userOld))) []
               = [fieldTypeChanged "User" "name" (NonNull String_) String_])
    by (vm_compute; reflexivity).
  rewrite Er in Hr. rewrite Ea in Ha. rewrite Em in Hm.
  symmetry in Hr, Ha, Hm.
  apply Permutation_length_1_inv in Hr, Ha, Hm. subst r a m.
  vm_compute. reflexivity.
Qed.

(** Nor does the diff depend on its inputs alone: two runs on the same pair
    of schemas that visit the type map in different orders return the same
    two changes in different orders. *)
Lemma C1_runs_differ :
  run (DiffSchemas (Some (schemaOf abSchemaOld)) (Some (schemaOf abSchemaNew)) None) []
  = Ok [fieldTypeChanged "A" "x" (NonNull String_) String_; fieldAdded "B" "y"]
  /\ run (DiffSchemas (Some (schemaOf abSchemaOld)) (Some (schemaOf abSchemaNew)) None)
       [[]; []; [0; 1; 0]]
     = Ok [fieldAdded "B" "y"; fieldTypeChanged "A" "x" (NonNull String_) String_].
Proof. split; vm_compute; reflexivity. Qed.

(** * Further properties of the diff *)

(** ** Iteration order *)

Lemma DiffSchemas_panic (oldS newS : Schema) options orc :
  Schema_ oldS = None \/ Schema_ newS = None ->
  run (DiffSchemas (Some oldS) (Some newS) options) orc = Panic.
Proof.
  unfold run, DiffSchemas. intros [H|H]; rewrite H; [reflexivity|].
  now destruct (Schema_ oldS).
Qed.

(** The changes [DiffSchemas] returns are the same on every run up to
    their order: the iteration order of the maps decides only where a
    change stands in the sequence. *)
Theorem DiffSchemas_same_up_to_order (A B : option Schema)
    (options : option DiffOptions) (orc orc' : Oracle) :
  sameUpToOrder (run (DiffSchemas A B options) orc) (run (DiffSchemas A B options) orc').
Proof.
  destruct A as [a|], B as [b|]; try reflexivity.
  destruct (Schema_ a) as [ga|] eqn:Ea, (Schema_ b) as [gb|] eqn:Eb;
    try (rewrite !DiffSchemas_panic by auto; exact I).
  rewrite !(DiffSchemas_run a b ga gb) by assumption. simpl.
  rewrite !sortSlice_perm. apply compareTypes_perm.
Qed.

(** ** Types that leave or enter the type map *)

(** The diff reports type [T] as removed exactly when the old type map has
    [T] and the new one lacks it, and as added exactly when the new type map
    has [T] and the old one lacks it. *)
Theorem DiffSchemas_type_removed_added_iff (A B : GraphQLSchema) (T : string)
    (options : option DiffOptions) (orc : Oracle) :
  (reports (isTypeRemoved T)
     (run (DiffSchemas (Some (schemaOf A)) (Some (schemaOf B)) options) orc)
   <-> is_Some (typeMap A !! T) /\ typeMap B !! T = None)
  /\ (reports (isTypeAdded T)
        (run (DiffSchemas (Some (schemaOf A)) (Some (schemaOf B)) options) orc)
      <-> is_Some (typeMap B !! T) /\ typeMap A !! T = None).
Proof.
  rewrite (DiffSchemas_run _ _ A B) by reflexivity. simpl.
  split; [apply reports_removed_iff | apply reports_added_iff].
Qed.

(** ** Kind changes *)

Lemma getTypeKind_eqb_false (o n : NamedType) :
  getTypeKind o <> getTypeKind n ->
  negb (String.eqb (getTypeKind o) (getTypeKind n)) = true.
Proof. intros H. apply negb_true_iff. now apply String.eqb_neq. Qed.

(** A type that both schemas have under different kinds gives one BREAKING
    change at the path of the type, which the diff contains; the comparison
    of the type returns nothing else, whatever the two definitions hold. *)
Theorem DiffSchemas_kind_changed (A B : GraphQLSchema) (T : string) (o n : NamedType)
    (options : option DiffOptions) (orc : Oracle) :
  typeMap A !! T = Some o ->
  typeMap B !! T = Some n ->
  getTypeKind o <> getTypeKind n ->
  run (compareType T o n (optionsOf options)) orc = [typeKindChanged T o n]
  /\ Type_ (typeKindChanged T o n) = ChangeTypeBreaking
  /\ Path (typeKindChanged T o n) = T
  /\ reports (eq (typeKindChanged T o n))
       (run (DiffSchemas (Some (schemaOf A)) (Some (schemaOf B)) options) orc).
Proof.
  intros HA HB Hk.
  assert (E : forall orc', run (compareType T o n (optionsOf options)) orc'
                           = [typeKindChanged T o n]).
  { intros orc'. unfold compareType. now rewrite getTypeKind_eqb_false. }
  repeat split; [apply E|].
  apply DiffSchemas_In. revert orc.
  apply (compareTypes_modified_In A B _ T o n _ HA HB).
  intros orc. rewrite E. now left.
Qed.

Lemma DiffSchemas_kind_changed_witness :
  typeMap nodeObjectSchema !! "Node" = Some (TObject nodeObject)
  /\ typeMap nodeSchemaOld !! "Node" = Some (TInterface nodeOld)
  /\ getTypeKind (TObject nodeObject) <> getTypeKind (TInterface nodeOld)
  /\ run (compareType "Node" (TObject nodeObject) (TInterface nodeOld) (optionsOf None)) []
     = [typeKindChanged "Node" (TObject nodeObject) (TInterface nodeOld)].
Proof.
  assert (H1 : typeMap nodeObjectSchema !! "Node" = Some (TObject nodeObject)) by reflexivity.
  assert (H2 : typeMap nodeSchemaOld !! "Node" = Some (TInterface nodeOld)) by reflexivity.
  assert (H3 : getTypeKind (TObject nodeObject) <> getTypeKind (TInterface nodeOld))
    by discriminate.
  split; [exact H1|]. split; [exact H2|]. split; [exact H3|].
  exact (proj1 (DiffSchemas_kind_changed nodeObjectSchema nodeSchemaOld "Node" _ _ None []
                  H1 H2 H3)).
Defined.

(** ** Severity and criticality *)

Lemma ModifiedChange_criticality c :
  ModifiedChange c -> Criticality c = criticalityOf (Type_ c).
Proof.
  intros []; simpl; try reflexivity.
  - now destruct (isTypeWidening o n).
  - now destruct (isRequiredType (arg_Type a)).
Qed.

(** Every Change of a diff carries the criticality label of its severity:
    HIGH with BREAKING, MEDIUM with DANGEROUS, LOW with NON_BREAKING. *)
Theorem DiffSchemas_criticality (A B : GraphQLSchema)
    (options : option DiffOptions) (orc : Oracle) :
  everyChange (fun c => Criticality c = criticalityOf (Type_ c))
    (run (DiffSchemas (Some (schemaOf A)) (Some (schemaOf B)) options) orc).
Proof.
  rewrite (DiffSchemas_run _ _ A B) by reflexivity. simpl.
  apply Forall_forall. intros c Hin. apply list_elem_of_In, sortSlice_In in Hin.
  apply compareTypes_In_elim in Hin as [(k & v & _ & _ & ->)|[(k & v & _ & _ & ->)|HM]];
    [reflexivity | reflexivity | now apply ModifiedChange_criticality].
Qed.

(** ** Type changes of fields *)

Lemma TypeKind_eqb_eq (a b : TypeKind) : TypeKind_eqb a b = true <-> a = b.
Proof. destruct a, b; simpl; split; congruence. Qed.

Lemma areTypesEqual_eq (a b : GType) : areTypesEqual a b = true <-> a = b.
Proof.
  revert b; induction a as [k n r|a IH|a IH]; intros [k' n' r'|b|b]; simpl;
    try (split; [discriminate | congruence]).
  - rewrite !andb_true_iff, TypeKind_eqb_eq, String.eqb_eq, Nat.eqb_eq.
    split; [intros [[-> ->] ->]; reflexivity | intros [= -> -> ->]; auto].
  - rewrite IH. split; congruence.
  - rewrite IH. split; congruence.
Qed.

Lemma isTypeWidening_true_iff (oldType newType : GType) :
  isTypeWidening oldType newType = true <-> oldType = NonNull newType.
Proof.
  revert newType; induction oldType as [k n r|a IH|a IH]; intros newType; simpl;
    try (split; [discriminate | congruence]).
  destruct newType as [k' n' r'|b|b].
  - rewrite areTypesEqual_eq. split; congruence.
  - rewrite areTypesEqual_eq. split; congruence.
  - rewrite IH. split; congruence.
Qed.

(** The one type change that counts as a widening is the removal of an
    outermost NonNull: [isTypeWidening old new] holds exactly when [old] is
    [new] wrapped in NonNull.  Every other change of type, list wrapping and
    nullability inside a list included, is no widening. *)
Theorem isTypeWidening_iff (oldType newType : GType) :
  isTypeWidening oldType newType = true <-> oldType = NonNull newType.
Proof. apply isTypeWidening_true_iff. Qed.

Lemma compareField_type_In tn fn o n opts orc :
  fd_Type o <> fd_Type n ->
  In (fieldTypeChanged tn fn (fd_Type o) (fd_Type n)) (run (compareField tn fn o n opts) orc).
Proof.
  intros Hne. rewrite compareField_run. apply in_or_app; left.
  unfold fieldTypeChanges.
  destruct (areTypesEqual (fd_Type o) (fd_Type n)) eqn:E; [|now left].
  now apply areTypesEqual_eq in E.
Qed.

(** For a field that both versions of an object type have and whose type
    differs, the diff reports the change of type at the path of the field:
    as DANGEROUS when the old type is the new one wrapped in NonNull, as
    BREAKING in every other case. *)
Theorem DiffSchemas_field_type_changed (A B : GraphQLSchema) (T f : string)
    (o n : Object) (fo fn : FieldDefinition) (options : option DiffOptions)
    (orc : Oracle) :
  typeMap A !! T = Some (TObject o) ->
  typeMap B !! T = Some (TObject n) ->
  obj_Fields o !! f = Some fo ->
  obj_Fields n !! f = Some fn ->
  fd_Type fo <> fd_Type fn ->
  let diff := run (DiffSchemas (Some (schemaOf A)) (Some (schemaOf B)) options) orc in
  (fd_Type fo = NonNull (fd_Type fn) ->
   reports (isFieldTypeChanged ChangeTypeDangerous T f (fd_Type fo) (fd_Type fn)) diff)
  /\ (fd_Type fo <> NonNull (fd_Type fn) ->
      reports (isFieldTypeChanged ChangeTypeBreaking T f (fd_Type fo) (fd_Type fn)) diff).
Proof.
  intros HA HB Ho Hn Hne diff.
  assert (Hin : reports (eq (fieldTypeChanged T f (fd_Type fo) (fd_Type fn))) diff).
  { apply DiffSchemas_In.
    apply (compareTypes_modified_In A B _ T _ _ _ HA HB).
    apply compareType_object_In.
    apply (compareFields_modified_In T _ _ _ f _ _ _ Ho Hn).
    intros orc'. now apply compareField_type_In. }
  subst diff.
  destruct (run (DiffSchemas (Some (schemaOf A)) (Some (schemaOf B)) options) orc)
    as [l| |]; try destruct Hin.
  destruct H as [Hl <-]. simpl.
  split; intros Hw; exists (fieldTypeChanged T f (fd_Type fo) (fd_Type fn));
    (split; [exact Hl|]); unfold isFieldTypeChanged, fieldTypeChanged; simpl.
  - apply isTypeWidening_true_iff in Hw. now rewrite Hw.
  - destruct (isTypeWidening (fd_Type fo) (fd_Type fn)) eqn:E; [|auto].
    now apply isTypeWidening_true_iff in E.
Qed.

Lemma DiffSchemas_field_type_changed_witness :
  (typeMap userSchemaOld !! "User" = Some (TObject userOld)
   /\ typeMap userSchemaNew !! "User" = Some (TObject userNew)
   /\ obj_Fields userOld !! "name" = Some (field "name" [] (NonNull String_))
   /\ obj_Fields userNew !! "name" = Some (field "name" [] String_)
   /\ NonNull String_ <> String_)
  /\ reports (isFieldTypeChanged ChangeTypeDangerous "User" "name" (NonNull String_) String_)
       (run (DiffSchemas (Some (schemaOf userSchemaOld)) (Some (schemaOf userSchemaNew)) None) [])
  /\ reports (isFieldTypeChanged ChangeTypeBreaking "User" "name" String_ (NonNull String_))
       (run (DiffSchemas (Some (schemaOf userSchemaNew)) (Some (schemaOf userSchemaOld)) None) []).
Proof.
  assert (H1 : typeMap userSchemaOld !! "User" = Some (TObject userOld)) by reflexivity.
  assert (H2 : typeMap userSchemaNew !! "User" = Some (TObject userNew)) by reflexivity.
  assert (H3 : obj_Fields userOld !! "name" = Some (field "name" [] (NonNull String_)))
    by reflexivity.
  assert (H4 : obj_Fields userNew !! "name" = Some (field "name" [] String_)) by reflexivity.
  assert (H5 : NonNull String_ <> String_) by discriminate.
  assert (H6 : String_ <> NonNull String_) by discriminate.
  assert (H7 : String_ <> NonNull (NonNull String_)) by discriminate.
  split; [repeat split; assumption|]. split.
  - exact (proj1 (DiffSchemas_field_type_changed userSchemaOld userSchemaNew "User" "name"
                    userOld userNew _ _ None [] H1 H2 H3 H4 H5) eq_refl).
  - exact (proj2 (DiffSchemas_field_type_changed userSchemaNew userSchemaOld "User" "name"
                    userNew userOld _ _ None [] H2 H1 H4 H3 H6) H7).
Defined.

(** ** Arguments are compared by name *)

Lemma argMap_None_iff_names (args : list Argument) (a : string) :
  argMap args !! a = None <-> ~ In a (argNames args).
Proof.
  rewrite argMap_lookup_None. unfold argNames. rewrite in_map_iff. split.
  - intros H (x & Hx & Hin). now apply (H x).
  - intros H x Hin Hx. apply H. now exists x.
Qed.

Lemma argMap_Some_iff_names (args : list Argument) (a : string) :
  is_Some (argMap args !! a) <-> In a (argNames args).
Proof.
  destruct (in_dec string_dec a (argNames args)) as [Hk|Hk].
  - split; [auto|]. intros _. destruct (argMap args !! a) eqn:E; [eauto|].
    now apply argMap_None_iff_names in E.
  - apply argMap_None_iff_names in Hk. rewrite Hk. split; [intros [x Hx]; discriminate|].
    intros Hin. now apply argMap_None_iff_names in Hk.
Qed.

Lemma removedOf_nil_iff {V : Type} (mk : string -> V -> Change) (m others : gmap string V)
    (orc : Oracle) :
  flat_map (removedOf mk others) (fst (rangeMap m orc)) = []
  <-> forall k, is_Some (m !! k) -> is_Some (others !! k).
Proof.
  split.
  - intros E k [v Hk]. destruct (others !! k) eqn:Ho; [eauto|].
    assert (Hin : In (mk k v) (flat_map (removedOf mk others) (fst (rangeMap m orc))))
      by (apply removedOf_In; now exists k, v).
    rewrite E in Hin. destruct Hin.
  - intros H. apply flat_map_nil. intros [k v] Hin. apply rangeMap_In in Hin.
    unfold removedOf; simpl. destruct (H k) as [w ->]; eauto.
Qed.

Lemma compareFieldArguments_nil_iff tn fn oa na opts orc :
  run (compareFieldArguments tn fn oa na opts) orc = []
  <-> forall a, In a (argNames oa) <-> In a (argNames na).
Proof.
  rewrite compareFieldArguments_run. split.
  - intros E. apply app_eq_nil in E as [E1 E2].
    pose proof (proj1 (removedOf_nil_iff (fun k _ => argRemoved tn fn k) _ _ _) E1) as R1.
    pose proof (proj1 (removedOf_nil_iff (argAdded tn fn) _ _ _) E2) as R2.
    intros a. rewrite <- !argMap_Some_iff_names. split; [apply R1 | apply R2].
  - intros H.
    rewrite (proj2 (removedOf_nil_iff (fun k _ => argRemoved tn fn k) _ _ _)),
            (proj2 (removedOf_nil_iff (argAdded tn fn) _ _ _)); [reflexivity| |];
      intros a; rewrite !argMap_Some_iff_names; apply H.
Qed.

(** When the old and the new version of a field have arguments of the same
    names, the comparison of the arguments returns no Change: a change of
    the type, of the default value or of the description of an argument, and
    a change of the order of the arguments, are not reported. *)
Theorem compareFieldArguments_same_names (typeName fieldName : string)
    (oldArgs newArgs : list Argument) (options : DiffOptions) (orc : Oracle) :
  (forall a, In a (argNames oldArgs) <-> In a (argNames newArgs)) ->
  run (compareFieldArguments typeName fieldName oldArgs newArgs options) orc = [].
Proof. apply compareFieldArguments_nil_iff. Qed.

Lemma compareFieldArguments_same_names_witness :
  (forall a, In a (argNames [argument "id" (NonNull ID_) None; argument "first" Int_ None])
             <-> In a (argNames [argument "first" (NonNull Int_) (Some "10");
                                 argument "id" String_ None]))
  /\ run (compareFieldArguments "Query" "user"
            [argument "id" (NonNull ID_) None; argument "first" Int_ None]
            [argument "first" (NonNull Int_) (Some "10"); argument "id" String_ None]
            defaultOptions) [] = [].
Proof.
  assert (H : forall a,
             In a (argNames [argument "id" (NonNull ID_) None; argument "first" Int_ None])
             <-> In a (argNames [argument "first" (NonNull Int_) (Some "10");
                                 argument "id" String_ None])).
  { intros a. simpl. tauto. }
  split; [exact H|].
  exact (compareFieldArguments_same_names "Query" "user" _ _ defaultOptions [] H).
Defined.

(** ** Paths *)

Lemma compareType_path tn o n opts orc c :
  In c (run (compareType tn o n opts) orc) -> pathRootedAt tn (Path c).
Proof.
  unfold compareType. destruct (negb _).
  { intros [<-|[]]. now left. }
  destruct o, n; try (intros []).
  rewrite compareObjectType_run, !in_app_iff. unfold typeDescriptionChanges.
  intros [H|[H|[]]].
  { destruct (_ && _); [destruct H as [<-|[]]; now left | destruct H]. }
  destruct (compareFields_run tn (obj_Fields t) (obj_Fields t0) opts orc)
    as (a1 & a2 & a3 & E).
  rewrite E, !in_app_iff in H. destruct H as [H|[H|H]].
  - apply removedOf_In in H as (k & v & _ & _ & ->). right. now exists k.
  - apply removedOf_In in H as (k & v & _ & _ & ->). right. now exists k.
  - apply forEach_In_elim in H as ([k v] & orc' & _ & H).
    unfold modifiedField in H; simpl in H.
    destruct (obj_Fields t0 !! k) as [nf|]; [|destruct H].
    rewrite compareField_run, compareFieldArguments_run, !in_app_iff in H.
    unfold fieldTypeChanges, fieldDescriptionChanges in H.
    destruct H as [H|[H|[H|H]]].
    + destruct (negb _); [destruct H as [<-|[]] | destruct H]. right. now exists k.
    + destruct (_ && _); [destruct H as [<-|[]] | destruct H]. right. now exists k.
    + apply removedOf_In in H as (a & v' & _ & _ & ->). right.
      now exists (k +:+ "(" +:+ a +:+ ":)").
    + apply removedOf_In in H as (a & v' & _ & _ & ->). right.
      now exists (k +:+ "(" +:+ a +:+ ":)").
Qed.

(** The path of every Change of a diff starts at a type of one of the two
    schemas: it is the name of a type that the old or the new type map has,
    or that name followed by a dot and the rest of the path. *)
Theorem DiffSchemas_paths_rooted (A B : GraphQLSchema)
    (options : option DiffOptions) (orc : Oracle) :
  everyChange
    (fun c => exists T, (is_Some (typeMap A !! T) \/ is_Some (typeMap B !! T))
                        /\ pathRootedAt T (Path c))
    (run (DiffSchemas (Some (schemaOf A)) (Some (schemaOf B)) options) orc).
Proof.
  rewrite (DiffSchemas_run _ _ A B) by reflexivity. simpl.
  apply Forall_forall. intros c Hin. apply list_elem_of_In, sortSlice_In in Hin.
  destruct (compareTypes_run A B (optionsOf options) orc) as (a1 & a2 & a3 & E).
  rewrite E, !in_app_iff in Hin. destruct Hin as [H|[H|H]].
  - apply removedOf_In in H as (k & v & HA & _ & ->). exists k. split; [eauto | now left].
  - apply removedOf_In in H as (k & v & HB & _ & ->). exists k. split; [eauto | now left].
  - apply forEach_In_elim in H as ([k v] & orc' & Hk & H). apply rangeMap_In in Hk.
    unfold modifiedType in H; simpl in H.
    destruct (typeMap B !! k); [|destruct H].
    exists k. split; [eauto | eapply compareType_path; eauto].
Qed.

(** ** Diff against a schema without types *)

Lemma removedOf_empty {V : Type} (mk : string -> V -> Change) (l : list (string * V)) :
  flat_map (removedOf mk ∅) l = map (fun e => mk e.1 e.2) l.
Proof.
  induction l as [|[k v] l IH]; [reflexivity|].
  simpl. unfold removedOf at 1; simpl. rewrite lookup_empty. simpl. now rewrite IH.
Qed.

(** Against a schema without types, the diff is one type-removed Change
    (BREAKING) for each type of the old schema and nothing else; from a schema
    without types, it is one type-added Change (NON_BREAKING) for each type of
    the new schema and nothing else. *)
Theorem DiffSchemas_empty_schema (A : GraphQLSchema)
    (options : option DiffOptions) (orc : Oracle) :
  (exists changes,
      run (DiffSchemas (Some (schemaOf A)) (Some (schemaOf emptySchema)) options) orc
      = Ok changes
      /\ changes ≡ₚ map (fun e => typeRemoved e.1 e.2) (map_to_list (typeMap A)))
  /\ (exists changes,
      run (DiffSchemas (Some (schemaOf emptySchema)) (Some (schemaOf A)) options) orc
      = Ok changes
      /\ changes ≡ₚ map (fun e => typeAdded e.1 e.2) (map_to_list (typeMap A))).
Proof.
  split; eexists; (split; [now apply DiffSchemas_run|]); rewrite sortSlice_perm.
  - destruct (compareTypes_run A emptySchema (optionsOf options) orc)
      as (a1 & a2 & a3 & ->).
    assert (E2 : (rangeMap (typeMap emptySchema) a1).1 = []).
    { apply Permutation_nil_r. rewrite rangeMap_perm. reflexivity. }
    rewrite E2. simpl. rewrite removedOf_empty.
    rewrite forEach_nil, app_nil_r.
    + apply Permutation_map, rangeMap_perm.
    + intros [k v] orc' _. unfold modifiedType; simpl. now rewrite lookup_empty.
  - destruct (compareTypes_run emptySchema A (optionsOf options) orc)
      as (a1 & a2 & a3 & ->).
    assert (E1 : forall o, (rangeMap (typeMap emptySchema) o).1 = []).
    { intros o. apply Permutation_nil_r. rewrite rangeMap_perm. reflexivity. }
    rewrite !E1. simpl. rewrite removedOf_empty, app_nil_r.
    apply Permutation_map, rangeMap_perm.
Qed.

(** ** The diff command *)

Lemma filterChangesByType_In changes ty c :
  In c (filterChangesByType changes ty) <-> In c changes /\ Type_ c = ty.
Proof.
  unfold filterChangesByType. rewrite filter_In.
  assert (H : ChangeType_eqb (Type_ c) ty = true <-> Type_ c = ty)
    by (destruct (Type_ c), ty; simpl; split; congruence).
  now rewrite H.
Qed.

Lemma calculateDiffSummary_fold (changes : list Change) (acc : DiffSummary) :
  let f := fun summary change =>
    match Type_ change with
    | ChangeTypeBreaking =>
        {| Breaking := S (Breaking summary); Dangerous := Dangerous summary;
           NonBreaking := NonBreaking summary |}
    | ChangeTypeDangerous =>
        {| Breaking := Breaking summary; Dangerous := S (Dangerous summary);
           NonBreaking := NonBreaking summary |}
    | ChangeTypeNonBreaking =>
        {| Breaking := Breaking summary; Dangerous := Dangerous summary;
           NonBreaking := S (NonBreaking summary) |}
    end in
  Breaking (fold_left f changes acc)
  = Breaking acc + length (filterChangesByType changes ChangeTypeBreaking)
  /\ Dangerous (fold_left f changes acc)
     = Dangerous acc + length (filterChangesByType changes ChangeTypeDangerous)
  /\ NonBreaking (fold_left f changes acc)
     = NonBreaking acc + length (filterChangesByType changes ChangeTypeNonBreaking).
Proof.
  intros f. revert acc. induction changes as [|c l IH]; intros acc; simpl.
  - repeat split; lia.
  - destruct (IH (f acc c)) as (E1 & E2 & E3). rewrite E1, E2, E3.
    unfold f. destruct (Type_ c); simpl; repeat split; lia.
Qed.

Lemma calculateDiffSummary_filter (changes : list Change) :
  Breaking (calculateDiffSummary changes)
  = length (filterChangesByType changes ChangeTypeBreaking)
  /\ Dangerous (calculateDiffSummary changes)
     = length (filterChangesByType changes ChangeTypeDangerous)
  /\ NonBreaking (calculateDiffSummary changes)
     = length (filterChangesByType changes ChangeTypeNonBreaking).
Proof.
  unfold calculateDiffSummary.
  destruct (calculateDiffSummary_fold changes
              {| Breaking := 0; Dangerous := 0; NonBreaking := 0 |}) as (E1 & E2 & E3).
  simpl in E1, E2, E3. now rewrite E1, E2, E3.
Qed.

(** The summary of the diff command counts the changes of each severity:
    each counter is the number of changes [filterChangesByType] keeps for
    that severity, and the three counters add up to the number of changes. *)
Theorem calculateDiffSummary_counts (changes : list Change) :
  let summary := calculateDiffSummary changes in
  Breaking summary = length (filterChangesByType changes ChangeTypeBreaking)
  /\ Dangerous summary = length (filterChangesByType changes ChangeTypeDangerous)
  /\ NonBreaking summary = length (filterChangesByType changes ChangeTypeNonBreaking)
  /\ Breaking summary + Dangerous summary + NonBreaking summary = length changes.
Proof.
  intros summary. subst summary.
  destruct (calculateDiffSummary_filter changes) as (E1 & E2 & E3).
  rewrite E1, E2, E3. repeat split.
  unfold filterChangesByType. clear.
  induction changes as [|c l IH]; simpl; [reflexivity|].
  destruct (Type_ c); simpl; lia.
Qed.

Lemma filterChangesByType_partition (changes : list Change) :
  filterChangesByType changes ChangeTypeBreaking
  ++ filterChangesByType changes ChangeTypeDangerous
  ++ filterChangesByType changes ChangeTypeNonBreaking ≡ₚ changes.
Proof.
  unfold filterChangesByType.
  induction changes as [|c l IH]; simpl; [reflexivity|].
  destruct (Type_ c); simpl.
  - now rewrite IH.
  - rewrite <- Permutation_middle. now rewrite IH.
  - rewrite app_assoc, <- Permutation_middle, <- app_assoc. now rewrite IH.
Qed.

Lemma severityAscending_same (t : ChangeType) (l : list Change) :
  Forall (fun c => Type_ c = t) l -> severityAscending l = true.
Proof.
  induction 1 as [|c l Hc Hl IH]; [reflexivity|]. simpl.
  destruct l as [|d l']; [reflexivity|].
  apply Forall_inv in Hl. rewrite IH, Hc, Hl, andb_true_r. apply Nat.leb_refl.
Qed.

Lemma severityAscending_app (l1 l2 : list Change) :
  severityAscending l1 = true -> severityAscending l2 = true ->
  (forall a b, In a l1 -> In b l2 -> severityRank (Type_ a) <= severityRank (Type_ b)) ->
  severityAscending (l1 ++ l2) = true.
Proof.
  intros H1 H2 H. induction l1 as [|a l1 IH]; [exact H2|].
  destruct l1 as [|a' l1'].
  - simpl. destruct l2 as [|b l2']; [reflexivity|].
    apply andb_true_iff. split; [|exact H2].
    apply Nat.leb_le, H; now left.
  - change (severityAscending (a :: a' :: l1' ++ l2) = true).
    simpl in H1. apply andb_true_iff in H1 as [Ha H1].
    simpl. apply andb_true_iff. split; [exact Ha|].
    apply IH; [exact H1|]. intros x y Hx Hy. apply H; [now right | exact Hy].
Qed.

Lemma severityAscending_groups (bs ds ns : list Change) :
  Forall (fun c => Type_ c = ChangeTypeBreaking) bs ->
  Forall (fun c => Type_ c = ChangeTypeDangerous) ds ->
  Forall (fun c => Type_ c = ChangeTypeNonBreaking) ns ->
  severityAscending (bs ++ ds ++ ns) = true.
Proof.
  intros Hb Hd Hn.
  apply severityAscending_app; [now apply severityAscending_same with (t := ChangeTypeBreaking)| |].
  - apply severityAscending_app;
      [now apply severityAscending_same with (t := ChangeTypeDangerous)
      |now apply severityAscending_same with (t := ChangeTypeNonBreaking)|].
    intros a b Ha Hb'.
    rewrite (proj1 (Forall_forall _ _) Hd a) by now apply list_elem_of_In.
    rewrite (proj1 (Forall_forall _ _) Hn b) by now apply list_elem_of_In.
    simpl; lia.
  - intros a b Ha Hb'.
    rewrite (proj1 (Forall_forall _ _) Hb a) by now apply list_elem_of_In.
    simpl; lia.
Qed.

(** The text output of the diff command lists every Change of the diff
    once, the BREAKING ones first, then the DANGEROUS ones, then the
    NON_BREAKING ones, whatever the order [DiffSchemas] returned them in. *)
Theorem outputDiffText_groups_by_severity (failOnBreaking failOnDangerous : bool)
    (changes : list Change) :
  fst (outputDiffText failOnBreaking failOnDangerous changes) ≡ₚ changes
  /\ severityAscending (fst (outputDiffText failOnBreaking failOnDangerous changes)) = true.
Proof.
  unfold outputDiffText. destruct changes as [|c l]; [split; reflexivity|].
  cbn [length Nat.eqb fst]. split; [apply filterChangesByType_partition|].
  apply severityAscending_groups; apply Forall_forall; intros x Hx;
    apply list_elem_of_In, filterChangesByType_In in Hx; tauto.
Qed.

(** The text output of the diff command returns the error "breaking changes
    detected" exactly when fail-on-breaking is set and the diff has a
    BREAKING change; failing that, it returns "dangerous changes detected"
    exactly when fail-on-dangerous is set and the diff has a DANGEROUS change;
    in every other case it returns no error. *)
Theorem outputDiffText_error (failOnBreaking failOnDangerous : bool)
    (changes : list Change) :
  let hasBreaking := exists c, In c changes /\ Type_ c = ChangeTypeBreaking in
  let hasDangerous := exists c, In c changes /\ Type_ c = ChangeTypeDangerous in
  let err := snd (outputDiffText failOnBreaking failOnDangerous changes) in
  (err = Some "breaking changes detected" <-> failOnBreaking = true /\ hasBreaking)
  /\ (err = Some "dangerous changes detected"
      <-> ~ (failOnBreaking = true /\ hasBreaking)
          /\ failOnDangerous = true /\ hasDangerous)
  /\ (err = None
      <-> ~ (failOnBreaking = true /\ hasBreaking)
          /\ ~ (failOnDangerous = true /\ hasDangerous)).
Proof.
  intros hasBreaking hasDangerous err.
  assert (HB : Nat.ltb 0 (Breaking (calculateDiffSummary changes)) = true <-> hasBreaking).
  { destruct (calculateDiffSummary_filter changes) as (-> & _).
    rewrite Nat.ltb_lt. unfold hasBreaking. split.
    - destruct (filterChangesByType changes ChangeTypeBreaking) as [|c l] eqn:E;
        [simpl; lia|]. intros _. exists c. apply filterChangesByType_In.
      rewrite E. now left.
    - intros (c & Hc). apply filterChangesByType_In in Hc.
      destruct (filterChangesByType changes ChangeTypeBreaking); [destruct Hc | simpl; lia]. }
  assert (HD : Nat.ltb 0 (Dangerous (calculateDiffSummary changes)) = true <-> hasDangerous).
  { destruct (calculateDiffSummary_filter changes) as (_ & -> & _).
    rewrite Nat.ltb_lt. unfold hasDangerous. split.
    - destruct (filterChangesByType changes ChangeTypeDangerous) as [|c l] eqn:E;
        [simpl; lia|]. intros _. exists c. apply filterChangesByType_In.
      rewrite E. now left.
    - intros (c & Hc). apply filterChangesByType_In in Hc.
      destruct (filterChangesByType changes ChangeTypeDangerous); [destruct Hc | simpl; lia]. }
  subst err. unfold outputDiffText.
  destruct changes as [|c0 l0].
  { simpl. repeat split; try discriminate; try tauto.
    - intros [_ (c & [] & _)].
    - intros [_ [_ (c & [] & _)]].
    - intros [_ (c & [] & _)].
    - intros [_ (c & [] & _)]. }
  cbn [length Nat.eqb snd].
  destruct (Nat.ltb 0 (Breaking (calculateDiffSummary (c0 :: l0)))) eqn:EB,
           (Nat.ltb 0 (Dangerous (calculateDiffSummary (c0 :: l0)))) eqn:ED,
           failOnBreaking, failOnDangerous; simpl;
    repeat split; try discriminate; try tauto; intuition (try discriminate; try congruence).
Qed.

Lemma outputDiffText_breaking (failOnDangerous : bool) (changes : list Change) (c : Change) :
  In c changes -> Type_ c = ChangeTypeBreaking ->
  snd (outputDiffText true failOnDangerous changes) = Some "breaking changes detected".
Proof.
  intros Hin Ht. unfold outputDiffText.
  destruct changes as [|c0 l0]; [destruct Hin|]. cbn [length Nat.eqb snd].
  destruct (calculateDiffSummary_filter (c0 :: l0)) as (-> & _).
  assert (Hf : In c (filterChangesByType (c0 :: l0) ChangeTypeBreaking))
    by now apply filterChangesByType_In.
  destruct (filterChangesByType (c0 :: l0) ChangeTypeBreaking); [destruct Hf | reflexivity].
Qed.

(** With fail-on-breaking set, the text output of the diff command returns
    the error "breaking changes detected" for the diff of two schemas of
    which the new one lacks a type of the old one. *)
Theorem outputDiffText_fails_on_removed_type (A B : GraphQLSchema) (T : string)
    (t : NamedType) (options : option DiffOptions) (orc : Oracle)
    (failOnDangerous : bool) :
  typeMap A !! T = Some t ->
  typeMap B !! T = None ->
  exists changes,
    run (DiffSchemas (Some (schemaOf A)) (Some (schemaOf B)) options) orc = Ok changes
    /\ snd (outputDiffText true failOnDangerous changes) = Some "breaking changes detected".
Proof.
  intros HA HB. eexists. split; [now apply DiffSchemas_run|].
  apply (outputDiffText_breaking _ _ (typeRemoved T t)); [|reflexivity].
  apply sortSlice_In.
  destruct (compareTypes_run A B (optionsOf options) orc) as (a1 & a2 & a3 & ->).
  apply in_or_app; left. apply removedOf_In. now exists T, t.
Qed.

Lemma outputDiffText_fails_on_removed_type_witness :
  typeMap userSchemaOld !! "User" = Some (TObject userOld)
  /\ typeMap emptySchema !! "User" = None
  /\ exists changes,
       run (DiffSchemas (Some (schemaOf userSchemaOld)) (Some (schemaOf emptySchema)) None) []
       = Ok changes
       /\ snd (outputDiffText true false changes) = Some "breaking changes detected".
Proof.
  assert (H1 : typeMap userSchemaOld !! "User" = Some (TObject userOld)) by reflexivity.
  assert (H2 : typeMap emptySchema !! "User" = None) by reflexivity.
  split; [exact H1|]. split; [exact H2|].
  exact (outputDiffText_fails_on_removed_type userSchemaOld emptySchema "User" _ None []
           false H1 H2).
Defined.

(** ** BREAKING changes come first *)

Lemma ltb_asym (a b : string) : String.ltb a b = true -> String.ltb b a = false.
Proof.
  unfold String.ltb. rewrite (String.compare_antisym a b).
  now destruct (String.compare b a).
Qed.

Lemma chain_snoc {A : Type} (R : A -> A -> Prop) (l : list A) (a : A) :
  chain R l ->
  match rev l with y :: _ => R y a | [] => True end ->
  chain R (l ++ [a]).
Proof.
  induction l as [|x l IH]; intros Hc Hl; [exact I|].
  destruct l as [|y l'].
  - simpl in *. auto.
  - change (R x y /\ chain R ((y :: l') ++ [a])).
    destruct Hc as [Hxy Hc]. split; [exact Hxy|]. apply IH; [exact Hc|].
    simpl in Hl. simpl.
    destruct (rev l' ++ [y]) as [|z r] eqn:E; [now destruct (rev l')|].
    simpl in Hl. exact Hl.
Qed.

Lemma chain_rev {A : Type} (R : A -> A -> Prop) (l : list A) :
  chain (fun a b => R b a) l -> chain R (rev l).
Proof.
  induction l as [|x l IH]; intros Hc; [exact I|]. simpl.
  apply chain_snoc.
  - apply IH. destruct l; [exact I | apply Hc].
  - rewrite rev_involutive. destruct l; [exact I | apply Hc].
Qed.

Lemma less_breaking_other (x y : Change) :
  Type_ x = ChangeTypeBreaking -> Type_ y <> ChangeTypeBreaking -> less x y = true.
Proof. unfold less. intros -> Hy. now destruct (Type_ y). Qed.

Lemma less_other_any (x y : Change) :
  Type_ x <> ChangeTypeBreaking -> Type_ y = ChangeTypeBreaking -> less x y = false.
Proof. unfold less. intros Hx ->. now destruct (Type_ x). Qed.

Lemma less_breaking_breaking (x y : Change) :
  Type_ x = ChangeTypeBreaking -> Type_ y = ChangeTypeBreaking ->
  less x y = String.ltb (Path x) (Path y).
Proof. unfold less. now intros -> ->. Qed.

Lemma sink_breaking_region (x : Change) (bs : list Change) :
  Type_ x = ChangeTypeBreaking ->
  Forall (fun c => Type_ c = ChangeTypeBreaking) bs ->
  chain (fun a b => pathNotAfter b a) bs ->
  Forall (fun c => Type_ c = ChangeTypeBreaking) (sink less x bs)
  /\ chain (fun a b => pathNotAfter b a) (sink less x bs)
  /\ match sink less x bs, bs with
     | h :: _, y :: _ => h = x \/ h = y
     | h :: _, [] => h = x
     | [], _ => False
     end.
Proof.
  intros Hx Hbs Hc. induction bs as [|y bs IH]; simpl.
  - repeat split; auto.
  - pose proof (Forall_inv Hbs) as Hy. pose proof (Forall_inv_tail Hbs) as Hbs'.
    rewrite (less_breaking_breaking x y Hx Hy).
    destruct (String.ltb (Path x) (Path y)) eqn:E.
    + destruct IH as (F & C & Hd); [exact Hbs' | destruct bs; [exact I | apply Hc] |].
      split; [now constructor|]. split; [|now right].
      destruct (sink less x bs) as [|h r] eqn:Es; [destruct Hd|].
      split; [|exact C].
      destruct bs as [|z bs'].
      * subst h. unfold pathNotAfter. now apply ltb_asym.
      * destruct Hd as [->| ->]; [unfold pathNotAfter; now apply ltb_asym | apply Hc].
    + split; [now constructor|]. split; [|now left].
      split; [exact E | exact Hc].
Qed.

Lemma sink_sinkInv (x : Change) (p : list Change) :
  sinkInv p -> sinkInv (sink less x p).
Proof.
  intros (others & bs & -> & Ho & Hb & Hc).
  destruct (Type_ x) eqn:Hx.
  - (* a BREAKING change passes the others and finds its place by path *)
    exists others, (sink less x bs).
    destruct (sink_breaking_region x bs Hx Hb Hc) as (F & C & _).
    repeat split; auto.
    clear Hc F C. induction Ho as [|y others Hy Ho IH]; [reflexivity|].
    simpl. rewrite (less_breaking_other x y Hx Hy). now rewrite IH.
  - assert (Hnb : Type_ x <> ChangeTypeBreaking) by congruence.
    clear Hx. induction Ho as [|y others Hy Ho IH].
    + exists [x], bs. repeat split; auto.
      simpl. destruct bs as [|y bs']; [reflexivity|].
      simpl. now rewrite (less_other_any x y Hnb (Forall_inv Hb)).
    + simpl. destruct (less x y).
      * destruct IH as (o' & b' & E & Ho' & Hb' & Hc').
        exists (y :: o'), b'. rewrite E. repeat split; auto.
      * exists (x :: y :: others), bs. repeat split; auto.
  - assert (Hnb : Type_ x <> ChangeTypeBreaking) by congruence.
    clear Hx. induction Ho as [|y others Hy Ho IH].
    + exists [x], bs. repeat split; auto.
      simpl. destruct bs as [|y bs']; [reflexivity|].
      simpl. now rewrite (less_other_any x y Hnb (Forall_inv Hb)).
    + simpl. destruct (less x y).
      * destruct IH as (o' & b' & E & Ho' & Hb' & Hc').
        exists (y :: o'), b'. rewrite E. repeat split; auto.
      * exists (x :: y :: others), bs. repeat split; auto.
Qed.

Lemma sortSlice_breakingFirst (l : list Change) : breakingFirst (sortSlice less l).
Proof.
  unfold sortSlice.
  assert (H : forall acc, sinkInv acc ->
                          sinkInv (fold_left (fun acc x => sink less x acc) l acc)).
  { induction l as [|x l IH]; intros acc Hacc; [exact Hacc|].
    simpl. apply IH. now apply sink_sinkInv. }
  destruct (H []) as (others & bs & -> & Ho & Hb & Hc).
  { exists [], []. repeat split; auto. }
  exists (rev bs), (rev others). rewrite rev_app_distr. repeat split.
  - apply Forall_forall. intros c Hin. apply list_elem_of_In, in_rev in Hin.
    apply (proj1 (Forall_forall _ _) Hb). now apply list_elem_of_In.
  - apply Forall_forall. intros c Hin. apply list_elem_of_In, in_rev in Hin.
    apply (proj1 (Forall_forall _ _) Ho). now apply list_elem_of_In.
  - now apply chain_rev.
Qed.

(** In a diff of at most 12 changes, the size up to which [sort.Slice] is
    the insertion sort of the model, the BREAKING changes come before all
    others and stand in the order of their paths. *)
Theorem DiffSchemas_breaking_first (A B : GraphQLSchema)
    (options : option DiffOptions) (orc : Oracle) (changes : list Change) :
  run (DiffSchemas (Some (schemaOf A)) (Some (schemaOf B)) options) orc = Ok changes ->
  length changes <= 12 ->
  breakingFirst changes.
Proof.
  rewrite (DiffSchemas_run _ _ A B) by reflexivity.
  intros [= <-] _. apply sortSlice_breakingFirst.
Qed.

Lemma DiffSchemas_breaking_first_witness :
  run (DiffSchemas (Some (schemaOf userSchemaOld)) (Some (schemaOf userSchemaNew)) None) []
  = Ok [fieldRemoved "User" "email"; fieldAdded "User" "avatar";
        fieldTypeChanged "User" "name" (NonNull String_) String_]
  /\ length [fieldRemoved "User" "email"; fieldAdded "User" "avatar";
             fieldTypeChanged "User" "name" (NonNull String_) String_] <= 12
  /\ breakingFirst [fieldRemoved "User" "email"; fieldAdded "User" "avatar";
                    fieldTypeChanged "User" "name" (NonNull String_) String_].
Proof.
  assert (H1 : run (DiffSchemas (Some (schemaOf userSchemaOld))
                      (Some (schemaOf userSchemaNew)) None) []
               = Ok [fieldRemoved "User" "email"; fieldAdded "User" "avatar";
                     fieldTypeChanged "User" "name" (NonNull String_) String_])
    by (vm_compute; reflexivity).
  assert (H2 : length [fieldRemoved "User" "email"; fieldAdded "User" "avatar";
                       fieldTypeChanged "User" "name" (NonNull String_) String_] <= 12)
    by (simpl; lia).
  split; [exact H1|]. split; [exact H2|].
  exact (DiffSchemas_breaking_first userSchemaOld userSchemaNew None [] _ H1 H2).
Defined.

(** ** Descriptions *)

Lemma isDescriptionChange_insert c k v m :
  Meta c = <[k := v]> m -> isDescriptionChange c = false.
Proof.
  intros H. unfold isDescriptionChange. apply bool_decide_eq_false.
  rewrite H. apply insert_non_empty.
Qed.

Lemma filter_keep_all (l : list Change) :
  (forall c, In c l -> isDescriptionChange c = false) ->
  List.filter (fun c => negb (isDescriptionChange c)) l = l.
Proof.
  induction l as [|c l IH]; intros H; [reflexivity|]. simpl.
  rewrite (H c) by now left. simpl. f_equal. apply IH.
  intros d Hd. apply H. now right.
Qed.

Ltac keep_flat_map :=
  repeat match goal with
  | |- context [List.filter ?k (flat_map ?g ?l)] =>
      rewrite (filter_keep_all (flat_map g l))
        by (let c := fresh "c" in let Hc := fresh "Hc" in let e := fresh "e" in
            intros c Hc; apply in_flat_map in Hc as (e & _ & Hc); simpl in Hc;
            match type of Hc with
            | In _ (match ?x with _ => _ end) => destruct x
            end;
            [destruct Hc
            |destruct Hc as [<-|[]]; eapply isDescriptionChange_insert; reflexivity])
  end.

Lemma withoutDescriptions_forEach {A : Type} (f g : A -> Iter (list Change)) (l : list A) :
  (forall x, withoutDescriptions (f x) (g x)) ->
  withoutDescriptions (forEach f l) (forEach g l).
Proof.
  intros H. induction l as [|x l IH]; intros orc; [reflexivity|].
  simpl. unfold bind, ret. rewrite (H x orc). simpl. rewrite (IH (g x orc).2). simpl.
  now rewrite List.filter_app.
Qed.

Lemma withoutDescriptions_compareField tn fn o n opts :
  withoutDescriptions (compareField tn fn o n (withIgnoreDescriptions true opts))
                      (compareField tn fn o n (withIgnoreDescriptions false opts)).
Proof.
  intros orc. unfold compareField, compareFieldArguments, bind, ret. simpl. f_equal.
  rewrite !List.filter_app. keep_flat_map.
  f_equal.
  - destruct (negb (areTypesEqual _ _)); [|reflexivity]. cbn [List.filter].
    now rewrite (isDescriptionChange_insert
                   (fieldTypeChanged tn fn (fd_Type o) (fd_Type n)) _ _ _ eq_refl).
  - destruct (negb (String.eqb _ _)); reflexivity.
Qed.

Lemma withoutDescriptions_compareFields tn (o n : gmap string FieldDefinition) opts :
  withoutDescriptions (compareFields tn o n (withIgnoreDescriptions true opts))
                      (compareFields tn o n (withIgnoreDescriptions false opts)).
Proof.
  intros orc. unfold compareFields, bind, ret. simpl.
  rewrite (withoutDescriptions_forEach _
             (fun e => match n !! e.1 with
                       | Some newField =>
                           compareField tn e.1 e.2 newField (withIgnoreDescriptions false opts)
                       | None => ret []
                       end)).
  - simpl. f_equal. rewrite !List.filter_app. now keep_flat_map.
  - intros [k v]. simpl. destruct (n !! k); [apply withoutDescriptions_compareField|].
    intros orc'. reflexivity.
Qed.

Lemma withoutDescriptions_compareType tn o n opts :
  withoutDescriptions (compareType tn o n (withIgnoreDescriptions true opts))
                      (compareType tn o n (withIgnoreDescriptions false opts)).
Proof.
  intros orc. unfold compareType. destruct (negb (String.eqb _ _)).
  { unfold ret. cbn [fst snd List.filter].
    now rewrite (isDescriptionChange_insert (typeKindChanged tn o n) _ _ _ eq_refl). }
  destruct o, n; try reflexivity.
  unfold compareObjectType, bind, ret.
  rewrite (withoutDescriptions_compareFields tn _ _ opts orc).
  cbn [fst snd compareImplementedInterfaces IgnoreDescriptions withIgnoreDescriptions
       negb andb].
  f_equal. rewrite !app_nil_r, List.filter_app. f_equal.
  destruct (negb (String.eqb _ _)); reflexivity.
Qed.

Lemma withoutDescriptions_compareTypes A B opts :
  withoutDescriptions (compareTypes A B (withIgnoreDescriptions true opts))
                      (compareTypes A B (withIgnoreDescriptions false opts)).
Proof.
  intros orc. unfold compareTypes, bind, ret. simpl.
  rewrite (withoutDescriptions_forEach _
             (fun e => match TypeMap B !! e.1 with
                       | Some newType =>
                           compareType e.1 e.2 newType (withIgnoreDescriptions false opts)
                       | None => ret []
                       end)).
  - simpl. f_equal. rewrite !List.filter_app. now keep_flat_map.
  - intros [k v]. simpl. destruct (TypeMap B !! k); [apply withoutDescriptions_compareType|].
    intros orc'. reflexivity.
Qed.

Lemma filter_perm (keep : Change -> bool) (l l' : list Change) :
  l ≡ₚ l' -> List.filter keep l ≡ₚ List.filter keep l'.
Proof.
  induction 1 as [|x l l' HP IH|x y l|l l' l'' HP1 IH1 HP2 IH2]; simpl.
  - reflexivity.
  - destruct (keep x); [now rewrite IH | exact IH].
  - destruct (keep x), (keep y); try reflexivity. apply perm_swap.
  - now rewrite IH1.
Qed.

Lemma ModifiedChange_description c :
  ModifiedChange c -> (isDescriptionChange c = true <-> DescriptionChange c).
Proof.
  assert (N : forall c k v m, Meta c = <[k := v]> m ->
                              (isDescriptionChange c = true <-> DescriptionChange c)).
  { intros d k v m H. rewrite (isDescriptionChange_insert d k v m H).
    split; [discriminate|].
    intros [(tn & ->)|(tn & fn & ->)]; simpl in H; symmetry in H;
      now apply insert_non_empty in H. }
  intros []; try (eapply N; reflexivity).
  - split; [intros _; left; eauto | reflexivity].
  - split; [intros _; right; eauto | reflexivity].
Qed.

(** With IgnoreDescriptions the diff is, up to order, the diff without it
    less the Changes for descriptions (of a type, "Description for type ...
    changed", and of a field, "Field ... description changed"); every other
    Change stays. *)
Theorem DiffSchemas_ignore_descriptions (A B : GraphQLSchema) (options : DiffOptions)
    (orc : Oracle) :
  exists ignoring reporting,
    run (DiffSchemas (Some (schemaOf A)) (Some (schemaOf B))
           (Some (withIgnoreDescriptions true options))) orc = Ok ignoring
    /\ run (DiffSchemas (Some (schemaOf A)) (Some (schemaOf B))
              (Some (withIgnoreDescriptions false options))) orc = Ok reporting
    /\ ignoring ≡ₚ List.filter (fun c => negb (isDescriptionChange c)) reporting
    /\ Forall (fun c => isDescriptionChange c = true <-> DescriptionChange c) reporting.
Proof.
  eexists _, _. split; [now apply DiffSchemas_run|]. split; [now apply DiffSchemas_run|].
  simpl. split.
  - rewrite sortSlice_perm. unfold run.
    rewrite (withoutDescriptions_compareTypes A B options orc). simpl.
    apply filter_perm. symmetry. apply sortSlice_perm.
  - apply Forall_forall. intros c Hin. apply list_elem_of_In, sortSlice_In in Hin.
    apply compareTypes_In_elim in Hin as [(k & v & _ & _ & ->)|[(k & v & _ & _ & ->)|HM]].
    + rewrite (isDescriptionChange_insert (typeRemoved k v) _ _ _ eq_refl).
      split; [discriminate|].
      intros [(tn & E)|(tn & fn & E)]; discriminate E.
    + rewrite (isDescriptionChange_insert (typeAdded k v) _ _ _ eq_refl).
      split; [discriminate|].
      intros [(tn & E)|(tn & fn & E)]; apply (f_equal Meta) in E; simpl in E;
        now apply insert_non_empty in E.
    + now apply ModifiedChange_description.
Qed.

(** ** The empty diff *)

Lemma forEach_nil_inv {A B : Type} (f : A -> Iter (list B)) (l : list A) (orc : Oracle) :
  run (forEach f l) orc = [] -> forall x, In x l -> exists orc', run (f x) orc' = [].
Proof.
  revert orc; induction l as [|y l IH]; intros orc E x Hx; [destruct Hx|].
  unfold run in E; simpl in E; unfold bind in E; simpl in E.
  apply app_eq_nil in E as [E1 E2].
  destruct Hx as [<-|Hx]; [now exists orc | eapply IH; eauto].
Qed.

Lemma ignore_or_same_iff (ignore : bool) (a b : string) :
  negb ignore && negb (String.eqb a b) = false <-> ignore = true \/ a = b.
Proof.
  destruct ignore; simpl; [tauto|].
  rewrite negb_false_iff, String.eqb_eq. split; [auto | now intros [|]].
Qed.

Lemma compareField_nil_iff tn fn o n opts orc :
  run (compareField tn fn o n opts) orc = [] <-> unchangedField opts o n.
Proof.
  rewrite compareField_run. unfold unchangedField, fieldTypeChanges, fieldDescriptionChanges.
  pose proof (compareFieldArguments_nil_iff tn fn (fd_Args o) (fd_Args n) opts orc) as HA.
  pose proof (ignore_or_same_iff (IgnoreDescriptions opts)
                (fd_Description o) (fd_Description n)) as HD.
  destruct (areTypesEqual (fd_Type o) (fd_Type n)); simpl.
  2:{ split; [discriminate|]. intros [Ht _]. discriminate Ht. }
  destruct (negb (IgnoreDescriptions opts) && negb (String.eqb _ _)); simpl.
  - split; [discriminate|]. intros (_ & Hd & _). apply HD in Hd. discriminate Hd.
  - split.
    + intros E. split; [reflexivity|]. split; [now apply HD | now apply HA].
    + intros (_ & _ & Ha). now apply HA.
Qed.

Lemma compareFields_nil_iff tn (o n : gmap string FieldDefinition) opts orc :
  run (compareFields tn o n opts) orc = []
  <-> forall f, match o !! f, n !! f with
                | None, None => True
                | Some fo, Some fn => unchangedField opts fo fn
                | _, _ => False
                end.
Proof.
  destruct (compareFields_run tn o n opts orc) as (a1 & a2 & a3 & ->). split.
  - intros E. apply app_eq_nil in E as [E1 E]. apply app_eq_nil in E as [E2 E3].
    pose proof (proj1 (removedOf_nil_iff (fun k _ => fieldRemoved tn k) _ _ _) E1) as R1.
    pose proof (proj1 (removedOf_nil_iff (fun k _ => fieldAdded tn k) _ _ _) E2) as R2.
    intros f. destruct (o !! f) as [fo|] eqn:Ho, (n !! f) as [fn|] eqn:Hn; auto.
    + destruct (forEach_nil_inv _ _ _ E3 (f, fo)) as [orc' E']; [now apply rangeMap_In|].
      unfold modifiedField in E'; simpl in E'. rewrite Hn in E'.
      now apply compareField_nil_iff in E'.
    + destruct (R1 f) as [x Hx]; [rewrite Ho; eauto | congruence].
    + destruct (R2 f) as [x Hx]; [rewrite Hn; eauto | congruence].
  - intros H.
    rewrite (proj2 (removedOf_nil_iff (fun k _ => fieldRemoved tn k) o n orc)),
            (proj2 (removedOf_nil_iff (fun k _ => fieldAdded tn k) n o a1)); simpl.
    + apply forEach_nil. intros [k v] orc' Hin. apply rangeMap_In in Hin.
      unfold modifiedField; simpl. specialize (H k). rewrite Hin in H.
      destruct (n !! k); [now apply compareField_nil_iff | reflexivity].
    + intros k [v Hk]. specialize (H k). rewrite Hk in H.
      destruct (o !! k); [eauto | destruct H].
    + intros k [v Hk]. specialize (H k). rewrite Hk in H.
      destruct (n !! k); [eauto | destruct H].
Qed.

Lemma compareType_nil_iff tn a b opts orc :
  run (compareType tn a b opts) orc = [] <-> unchangedType opts a b.
Proof.
  destruct a as [o| | | | |], b as [n| | | | |];
    try (split; [discriminate | intros []]); try (split; [intros _; exact I | reflexivity]).
  rewrite compareType_object, compareObjectType_run, app_nil_r.
  unfold unchangedType, unchangedObject, typeDescriptionChanges.
  pose proof (compareFields_nil_iff tn (obj_Fields o) (obj_Fields n) opts orc) as HF.
  pose proof (ignore_or_same_iff (IgnoreDescriptions opts)
                (obj_Description o) (obj_Description n)) as HD.
  destruct (negb (IgnoreDescriptions opts) && negb (String.eqb _ _)); simpl.
  - split; [discriminate|]. intros [Hd _]. apply HD in Hd. discriminate Hd.
  - split.
    + intros E. split; [now apply HD | now apply HF].
    + intros [_ Hf]. now apply HF.
Qed.

Lemma compareTypes_nil_iff A B opts orc :
  run (compareTypes A B opts) orc = [] <-> unchangedSchema opts (typeMap A) (typeMap B).
Proof.
  destruct (compareTypes_run A B opts orc) as (a1 & a2 & a3 & ->). split.
  - intros E. apply app_eq_nil in E as [E1 E]. apply app_eq_nil in E as [E2 E3].
    pose proof (proj1 (removedOf_nil_iff typeRemoved _ _ _) E1) as R1.
    pose proof (proj1 (removedOf_nil_iff typeAdded _ _ _) E2) as R2.
    intros T. destruct (typeMap A !! T) as [a|] eqn:Ho, (typeMap B !! T) as [b|] eqn:Hn; auto.
    + destruct (forEach_nil_inv _ _ _ E3 (T, a)) as [orc' E']; [now apply rangeMap_In|].
      unfold modifiedType in E'; simpl in E'. rewrite Hn in E'.
      now apply compareType_nil_iff in E'.
    + destruct (R1 T) as [x Hx]; [rewrite Ho; eauto | congruence].
    + destruct (R2 T) as [x Hx]; [rewrite Hn; eauto | congruence].
  - intros H.
    rewrite (proj2 (removedOf_nil_iff typeRemoved (typeMap A) (typeMap B) orc)),
            (proj2 (removedOf_nil_iff typeAdded (typeMap B) (typeMap A) a1)); simpl.
    + apply forEach_nil. intros [k v] orc' Hin. apply rangeMap_In in Hin.
      unfold modifiedType; simpl. specialize (H k). rewrite Hin in H.
      destruct (typeMap B !! k); [now apply compareType_nil_iff | reflexivity].
    + intros k [v Hk]. specialize (H k). rewrite Hk in H.
      destruct (typeMap A !! k); [eauto | destruct H].
    + intros k [v Hk]. specialize (H k). rewrite Hk in H.
      destruct (typeMap B !! k); [eauto | destruct H].
Qed.

(** [DiffSchemas] returns an empty diff exactly when the two type maps hold
    types of the same names and kinds and, for each object type, the same
    description (unless descriptions are ignored) and fields of the same
    names, each with a type that [areTypesEqual] finds equal to its
    counterpart, the same description (unless ignored) and arguments of the
    same names.  [areTypesEqual] is deep equality of the two type references:
    it reaches into the types the field types refer to, so a change inside
    such a type makes the diff non-empty through the field. *)
Theorem DiffSchemas_empty_iff (A B : GraphQLSchema) (options : option DiffOptions)
    (orc : Oracle) :
  run (DiffSchemas (Some (schemaOf A)) (Some (schemaOf B)) options) orc = Ok []
  <-> unchangedSchema (optionsOf options) (typeMap A) (typeMap B).
Proof.
  rewrite (DiffSchemas_run _ _ A B) by reflexivity.
  rewrite <- (compareTypes_nil_iff A B (optionsOf options) orc). split.
  - intros [= E]. apply Permutation_nil. rewrite <- E. apply sortSlice_perm.
  - now intros ->.
Qed.

(** The arguments of [Query.user] change type, [Query] implements other
    interfaces and the union has other members, while the type of
    [Query.user] is the built-in String on both sides and no field refers to
    the union: the diff is empty. *)
Lemma DiffSchemas_empty_example (orc : Oracle) :
  run (DiffSchemas (Some (schemaOf (searchSchema (NonNull ID_) ["Node"] ["User"])))
         (Some (schemaOf (searchSchema String_ [] ["User"; "Post"]))) None) orc = Ok [].
Proof. apply DiffSchemas_nil; vm_compute; reflexivity. Qed.

(** ** The contents of the diff *)

Lemma compareType_Origin opts (A B : gmap string NamedType) T a b orc c :
  A !! T = Some a -> B !! T = Some b ->
  In c (run (compareType T a b opts) orc) -> Origin opts A B c.
Proof.
  intros HA HB. unfold compareType.
  destruct (negb (String.eqb (getTypeKind a) (getTypeKind b))) eqn:Ek.
  { intros [<-|[]]. apply O_typeKindChanged; auto.
    apply negb_true_iff in Ek. now apply String.eqb_neq. }
  destruct a as [o| | | | |], b as [n| | | | |]; try (intros []).
  rewrite compareObjectType_run, !in_app_iff. unfold typeDescriptionChanges.
  intros [H|[H|[]]].
  { destruct (negb (IgnoreDescriptions opts)) eqn:Ei; simpl in H; [|destruct H].
    destruct (negb (String.eqb (obj_Description o) (obj_Description n))) eqn:Ed;
      [|destruct H].
    destruct H as [<-|[]].
    eapply O_typeDescriptionChanged; eauto.
    - now apply negb_true_iff in Ei.
    - apply negb_true_iff in Ed. now apply String.eqb_neq. }
  destruct (compareFields_run T (obj_Fields o) (obj_Fields n) opts orc)
    as (a1 & a2 & a3 & E).
  rewrite E, !in_app_iff in H. destruct H as [H|[H|H]].
  - apply removedOf_In in H as (k & v & Ho & Hn & ->). eapply O_fieldRemoved; eauto.
  - apply removedOf_In in H as (k & v & Hn & Ho & ->). eapply O_fieldAdded; eauto.
  - apply forEach_In_elim in H as ([k fo] & orc' & Hk & H). apply rangeMap_In in Hk.
    unfold modifiedField in H; simpl in H.
    destruct (obj_Fields n !! k) as [fn|] eqn:Hn; [|destruct H].
    rewrite compareField_run, compareFieldArguments_run, !in_app_iff in H.
    unfold fieldTypeChanges, fieldDescriptionChanges in H.
    destruct H as [H|[H|[H|H]]].
    + destruct (areTypesEqual (fd_Type fo) (fd_Type fn)) eqn:Et; [destruct H|].
      destruct H as [<-|[]]. eapply O_fieldTypeChanged; eauto.
      intros Heq. apply areTypesEqual_eq in Heq. congruence.
    + destruct (negb (IgnoreDescriptions opts)) eqn:Ei; simpl in H; [|destruct H].
      destruct (negb (String.eqb (fd_Description fo) (fd_Description fn))) eqn:Ed;
        [|destruct H].
      destruct H as [<-|[]].
      eapply O_fieldDescriptionChanged; eauto.
      * now apply negb_true_iff in Ei.
      * apply negb_true_iff in Ed. now apply String.eqb_neq.
    + apply removedOf_In in H as (x & v' & Hx & Hy & ->). eapply O_argRemoved; eauto.
    + apply removedOf_In in H as (x & v' & Hx & Hy & ->). eapply O_argAdded; eauto.
Qed.

Lemma Origin_In opts (A B : GraphQLSchema) c :
  Origin opts (typeMap A) (typeMap B) c ->
  forall orc, In c (run (compareTypes A B opts) orc).
Proof.
  intros [T t HA HB|T t HB HA|T a b HA HB Hk|T o n HA HB Hi Hd|T o n f fd HA HB Ho Hn
         |T o n f fd HA HB Hn Ho|T o n f fo fn HA HB Ho Hn Ht
         |T o n f fo fn HA HB Ho Hn Hi Hd|T o n f fo fn a arg HA HB Ho Hn Ha Hb
         |T o n f fo fn a arg HA HB Ho Hn Ha Hb].
  - intros orc. destruct (compareTypes_run A B opts orc) as (a1 & a2 & a3 & ->).
    apply in_or_app; left. apply removedOf_In. now exists T, t.
  - intros orc. destruct (compareTypes_run A B opts orc) as (a1 & a2 & a3 & ->).
    apply in_or_app; right. apply in_or_app; left. apply removedOf_In. now exists T, t.
  - apply (compareTypes_modified_In A B _ T a b _ HA HB). intros orc.
    unfold compareType. rewrite getTypeKind_eqb_false by assumption. now left.
  - apply (compareTypes_modified_In A B _ T _ _ _ HA HB). intros orc.
    rewrite compareType_object, compareObjectType_run. apply in_or_app; left.
    unfold typeDescriptionChanges. rewrite Hi. apply String.eqb_neq in Hd. rewrite Hd.
    now left.
  - apply (compareTypes_modified_In A B _ T _ _ _ HA HB), compareType_object_In.
    intros orc. eapply compareFields_removed_In; eauto.
  - apply (compareTypes_modified_In A B _ T _ _ _ HA HB), compareType_object_In.
    intros orc. eapply compareFields_added_In; eauto.
  - apply (compareTypes_modified_In A B _ T _ _ _ HA HB), compareType_object_In.
    apply (compareFields_modified_In T _ _ _ f _ _ _ Ho Hn).
    intros orc. now apply compareField_type_In.
  - apply (compareTypes_modified_In A B _ T _ _ _ HA HB), compareType_object_In.
    apply (compareFields_modified_In T _ _ _ f _ _ _ Ho Hn).
    intros orc. rewrite compareField_run. apply in_or_app; right. apply in_or_app; left.
    unfold fieldDescriptionChanges. rewrite Hi. apply String.eqb_neq in Hd. rewrite Hd.
    now left.
  - apply (compareTypes_modified_In A B _ T _ _ _ HA HB), compareType_object_In.
    apply (compareFields_modified_In T _ _ _ f _ _ _ Ho Hn), compareField_args_In.
    intros orc. eapply compareFieldArguments_removed_In; eauto.
  - apply (compareTypes_modified_In A B _ T _ _ _ HA HB), compareType_object_In.
    apply (compareFields_modified_In T _ _ _ f _ _ _ Ho Hn), compareField_args_In.
    intros orc. eapply compareFieldArguments_added_In; eauto.
Qed.

Lemma compareTypes_Origin_iff (A B : GraphQLSchema) opts orc c :
  In c (run (compareTypes A B opts) orc) <-> Origin opts (typeMap A) (typeMap B) c.
Proof.
  split; [|intros HO; now apply Origin_In].
  intros Hin. destruct (compareTypes_run A B opts orc) as (a1 & a2 & a3 & E).
  rewrite E, !in_app_iff in Hin. destruct Hin as [H|[H|H]].
  - apply removedOf_In in H as (k & v & HA & HB & ->). now apply O_typeRemoved.
  - apply removedOf_In in H as (k & v & HB & HA & ->). now apply O_typeAdded.
  - apply forEach_In_elim in H as ([k v] & orc' & Hk & H). apply rangeMap_In in Hk.
    unfold modifiedType in H; simpl in H.
    destruct (typeMap B !! k) as [b|] eqn:HB; [|destruct H].
    eapply compareType_Origin; eauto.
Qed.

(** The diff holds exactly the Changes of [Origin]: a Change is in the
    diff of two schemas if and only if it is one of the ten kinds of Change of
    the comparators, built for a type, field or argument that meets the
    condition of that kind.  In particular the contents of the diff are the
    same on every run. *)
Theorem DiffSchemas_contents (A B : GraphQLSchema) (options : option DiffOptions)
    (orc : Oracle) (c : Change) :
  reports (eq c) (run (DiffSchemas (Some (schemaOf A)) (Some (schemaOf B)) options) orc)
  <-> Origin (optionsOf options) (typeMap A) (typeMap B) c.
Proof.
  rewrite (DiffSchemas_run _ _ A B) by reflexivity. simpl.
  rewrite <- (compareTypes_Origin_iff A B (optionsOf options) orc). split.
  - intros (c' & Hin & <-). now apply sortSlice_In in Hin.
  - intros Hin. exists c. split; [now apply sortSlice_In | reflexivity].
Qed.

(** ** Fields that leave or enter an object type *)

Lemma path_message (T f R : string) : T +:+ "." +:+ f +:+ R = (T +:+ "." +:+ f) +:+ R.
Proof.
  induction T as [|ch T IH]; simpl; [reflexivity | apply (f_equal (String ch)); exact IH].
Qed.

Lemma field_message_clash (T f T' f' R R' : string) :
  T' +:+ "." +:+ f' = T +:+ "." +:+ f ->
  "Field '" +:+ T' +:+ "." +:+ f' +:+ R' = "Field '" +:+ T +:+ "." +:+ f +:+ R ->
  R' = R.
Proof.
  intros Hp Hm. apply (append_inv_head "Field '") in Hm.
  rewrite !path_message, Hp in Hm. now apply append_inv_head in Hm.
Qed.

Lemma Origin_field_removed opts (A B : gmap string NamedType) T f c :
  Origin opts A B c -> isFieldRemoved T f c ->
  exists T' f' o n fd,
    T' +:+ "." +:+ f' = T +:+ "." +:+ f
    /\ A !! T' = Some (TObject o) /\ B !! T' = Some (TObject n)
    /\ obj_Fields o !! f' = Some fd /\ obj_Fields n !! f' = None.
Proof.
  intros [] (Ht & Hp & Hm); simpl in Ht, Hp, Hm;
    try discriminate Ht; try discriminate Hm.
  - eauto 10.
  - apply (field_message_clash T f) in Hm; [discriminate Hm | exact Hp].
Qed.

Lemma Origin_field_added opts (A B : gmap string NamedType) T f c :
  Origin opts A B c -> isFieldAdded T f c ->
  exists T' f' o n fd,
    T' +:+ "." +:+ f' = T +:+ "." +:+ f
    /\ A !! T' = Some (TObject o) /\ B !! T' = Some (TObject n)
    /\ obj_Fields n !! f' = Some fd /\ obj_Fields o !! f' = None.
Proof.
  intros [] (Ht & Hp & Hm); simpl in Ht, Hp, Hm;
    try discriminate Ht; try discriminate Hm.
  - eauto 10.
  - apply (field_message_clash T f) in Hm; [discriminate Hm | exact Hp].
  - apply (field_message_clash T f) in Hm; [discriminate Hm | exact Hp].
Qed.

Lemma isFieldRemoved_path T f T' f' :
  T' +:+ "." +:+ f' = T +:+ "." +:+ f -> isFieldRemoved T f (fieldRemoved T' f').
Proof.
  intros Hp. repeat split; simpl; [exact Hp|].
  change (String "F" (String "i" (String "e" (String "l" (String "d"
            (String " " (String "'" (T' +:+ "." +:+ f' +:+ "' was removed")))))))
          = String "F" (String "i" (String "e" (String "l" (String "d"
            (String " " (String "'" (T +:+ "." +:+ f +:+ "' was removed")))))))).
  now rewrite !path_message, Hp.
Qed.

Lemma isFieldAdded_path T f T' f' :
  T' +:+ "." +:+ f' = T +:+ "." +:+ f -> isFieldAdded T f (fieldAdded T' f').
Proof.
  intros Hp. repeat split; simpl; [exact Hp|].
  change (String "F" (String "i" (String "e" (String "l" (String "d"
            (String " " (String "'" (T' +:+ "." +:+ f' +:+ "' was added")))))))
          = String "F" (String "i" (String "e" (String "l" (String "d"
            (String " " (String "'" (T +:+ "." +:+ f +:+ "' was added")))))))).
  now rewrite !path_message, Hp.
Qed.

(** The diff of [A] against [B] reports a field as removed exactly when the
    diff of [B] against [A] reports it as added, whatever the options and
    the iteration orders of the two runs. *)
Theorem DiffSchemas_field_removed_iff_added_reversed (A B : GraphQLSchema) (T f : string)
    (options options' : option DiffOptions) (orc orc' : Oracle) :
  reports (isFieldRemoved T f)
    (run (DiffSchemas (Some (schemaOf A)) (Some (schemaOf B)) options) orc)
  <-> reports (isFieldAdded T f)
        (run (DiffSchemas (Some (schemaOf B)) (Some (schemaOf A)) options') orc').
Proof.
  rewrite (DiffSchemas_run _ _ A B), (DiffSchemas_run _ _ B A) by reflexivity. simpl.
  split; intros (c & Hin & Hc); apply sortSlice_In, compareTypes_Origin_iff in Hin.
  - destruct (Origin_field_removed _ _ _ T f c Hin Hc)
      as (T' & f' & o & n & fd & Hp & HA & HB & Ho & Hn).
    exists (fieldAdded T' f'). split; [|now apply isFieldAdded_path].
    apply sortSlice_In, compareTypes_Origin_iff. eapply O_fieldAdded; eauto.
  - destruct (Origin_field_added _ _ _ T f c Hin Hc)
      as (T' & f' & o & n & fd & Hp & HB & HA & Ho & Hn).
    exists (fieldRemoved T' f'). split; [|now apply isFieldRemoved_path].
    apply sortSlice_In, compareTypes_Origin_iff. eapply O_fieldRemoved; eauto.
Qed.

(** ** Options and directives *)

(** The options IgnoreDirectives and CustomRules and the directives of
    the two schemas have no effect on the diff: directives are not compared,
    and no rule is applied. *)
Theorem DiffSchemas_directives_and_rules_unused (A B : GraphQLSchema)
    (dirsA dirsB : list Directive) (options : DiffOptions)
    (ignoreDirectives : bool) (customRules : list string) (orc : Oracle) :
  run (DiffSchemas (Some (schemaOf (withDirectives A dirsA)))
         (Some (schemaOf (withDirectives B dirsB)))
         (Some (withOtherOptions options ignoreDirectives customRules))) orc
  = run (DiffSchemas (Some (schemaOf A)) (Some (schemaOf B)) (Some options)) orc.
Proof.
  rewrite (DiffSchemas_run _ _ (withDirectives A dirsA) (withDirectives B dirsB)),
          (DiffSchemas_run _ _ A B) by reflexivity.
  reflexivity.
Qed.

(** ** Enum types *)

Lemma Origin_change_for_type opts (A B : gmap string NamedType) (T : string) (c : Change) :
  Origin opts A B c -> isChangeForType T c ->
  (A !! T = None \/ B !! T = None)
  \/ (exists a b, A !! T = Some a /\ B !! T = Some b /\ getTypeKind a <> getTypeKind b)
  \/ (exists o n, A !! T = Some (TObject o) /\ B !! T = Some (TObject n)).
Proof.
  intros HO [Hm|Hc].
  - destruct HO; simpl in Hm;
      first [rewrite lookup_insert_eq in Hm; injection Hm as <-
            |rewrite lookup_empty in Hm; discriminate Hm];
      eauto 10.
  - destruct HO;
      first [apply (f_equal Message) in Hc; simpl in Hc; discriminate Hc
            |apply (f_equal Path) in Hc; simpl in Hc; subst];
      eauto 10.
Qed.

(** C4, as the code has it: the enum comparator is a placeholder.  For an
    enum type that both schemas have, the comparison of the type returns no
    Change, whatever values were removed, added or deprecated, and the diff
    holds no Change for the enum type: none whose metadata name it as the
    type, and no description Change for it. *)
Theorem C4_enum_values_not_compared (A B : GraphQLSchema) (T : string) (eo en : Enum)
    (options : option DiffOptions) (orc : Oracle) :
  typeMap A !! T = Some (TEnum eo) ->
  typeMap B !! T = Some (TEnum en) ->
  run (compareType T (TEnum eo) (TEnum en) (optionsOf options)) orc = []
  /\ everyChange (fun c => ~ isChangeForType T c)
       (run (DiffSchemas (Some (schemaOf A)) (Some (schemaOf B)) options) orc).
Proof.
  intros HA HB. split; [apply compareType_enum|].
  rewrite (DiffSchemas_run _ _ A B) by reflexivity. simpl.
  apply Forall_forall. intros c Hin Hc.
  apply list_elem_of_In, sortSlice_In, compareTypes_Origin_iff in Hin.
  destruct (Origin_change_for_type _ _ _ T c Hin Hc)
    as [[H|H]|[(a & b & Ha & Hb & Hk)|(o & n & Ho & Hn)]]; try congruence.
  rewrite HA in Ha. rewrite HB in Hb. injection Ha as <-. injection Hb as <-.
  now apply Hk.
Qed.

Lemma C4_enum_values_not_compared_witness :
  typeMap (colorSchema [enumValue "RED" ""; enumValue "GREEN" ""]) !! "Color"
  = Some (TEnum (color [enumValue "RED" ""; enumValue "GREEN" ""]))
  /\ typeMap (colorSchema [enumValue "GREEN" "use RED"; enumValue "BLUE" ""]) !! "Color"
     = Some (TEnum (color [enumValue "GREEN" "use RED"; enumValue "BLUE" ""]))
  /\ everyChange (fun c => ~ isChangeForType "Color" c)
       (run (DiffSchemas
               (Some (schemaOf (colorSchema [enumValue "RED" ""; enumValue "GREEN" ""])))
               (Some (schemaOf (colorSchema [enumValue "GREEN" "use RED";
                                             enumValue "BLUE" ""])))
               None) []).
Proof.
  assert (H1 : typeMap (colorSchema [enumValue "RED" ""; enumValue "GREEN" ""]) !! "Color"
               = Some (TEnum (color [enumValue "RED" ""; enumValue "GREEN" ""])))
    by reflexivity.
  assert (H2 : typeMap (colorSchema [enumValue "GREEN" "use RED"; enumValue "BLUE" ""])
                 !! "Color"
               = Some (TEnum (color [enumValue "GREEN" "use RED"; enumValue "BLUE" ""])))
    by reflexivity.
  split; [exact H1|]. split; [exact H2|].
  exact (proj2 (C4_enum_values_not_compared _ _ "Color" _ _ None [] H1 H2)).
Defined.

(** Where a field has the enum as its type, the two Color objects differ
    under DeepEqual once a value is removed, so the two references carry
    different [ref]s: the diff then holds the change of the field, which
    names [Query] as its type, and still no Change for the enum. *)
Lemma enum_referenced_by_field_example (orc : Oracle) :
  run (DiffSchemas
         (Some (schemaOf (favoriteSchema [enumValue "RED" ""; enumValue "GREEN" ""] 3)))
         (Some (schemaOf (favoriteSchema [enumValue "GREEN" ""] 4))) None) orc
  = Ok [fieldTypeChanged "Query" "favorite" (Named KEnum "Color" 3) (Named KEnum "Color" 4)]
  /\ Type_ (fieldTypeChanged "Query" "favorite" (Named KEnum "Color" 3) (Named KEnum "Color" 4))
     = ChangeTypeBreaking
  /\ Message (fieldTypeChanged "Query" "favorite" (Named KEnum "Color" 3)
                (Named KEnum "Color" 4))
     = "Field 'Query.favorite' changed type from Color to Color"
  /\ ~ isChangeForType "Color"
         (fieldTypeChanged "Query" "favorite" (Named KEnum "Color" 3) (Named KEnum "Color" 4)).
Proof.
  split; [apply DiffSchemas_single; vm_compute; reflexivity|].
  split; [reflexivity|]. split; [reflexivity|].
  intros [H|H]; [vm_compute in H; discriminate H | discriminate H].
Qed.
